(** * testperanto: word morphology and n-gram streaming

    A shallow embedding of [testperanto/morphology.py] and of
    [stream_ngrams] and [stream_lines] from [testperanto/corpora.py],
    together with the properties their documentation states and further
    properties read off the code.

    Python strings are modelled by [string], dictionaries by stdpp's
    [gmap], tuples of property values by [list string], integers by [Z].
    A call either returns a value or raises; methods are written in a
    small state-and-exception monad whose state is the receiver [self]. *)

From stdpp Require Import gmap strings list fin_maps.
From Stdlib Require Import ZArith Ascii.

Local Open Scope Z_scope.

(** ** The fragment of the Python runtime the code relies on *)

(** Built-in exception classes and their method resolution order. *)
Inductive pyclass : Set :=
  | cBaseException | cException | cLookupError | cKeyError
  | cIndexError | cTypeError | cValueError.

Global Instance pyclass_eq_dec : EqDecision pyclass.
Proof. solve_decision. Defined.

Definition mro (c : pyclass) : list pyclass :=
  match c with
  | cBaseException => [cBaseException]
  | cException => [cException; cBaseException]
  | cLookupError => [cLookupError; cException; cBaseException]
  | cKeyError => [cKeyError; cLookupError; cException; cBaseException]
  | cIndexError => [cIndexError; cLookupError; cException; cBaseException]
  | cTypeError => [cTypeError; cException; cBaseException]
  | cValueError => [cValueError; cException; cBaseException]
  end.

Definition issubclass (c d : pyclass) : bool := bool_decide (d ∈ mro c).

(** The objects used as dictionary keys: a property name (a [str]) or a
    tuple of property values. A [KeyError] carries the key that was not
    found. *)
Inductive pykey : Set :=
  | KStr (s : string)
  | KTuple (t : list string).

Inductive exn : Set :=
  | KeyError (key : pykey)
  | TypeError (msg : string).

Definition class_of (e : exn) : pyclass :=
  match e with
  | KeyError _ => cKeyError
  | TypeError _ => cTypeError
  end.

Definition isinstance (e : exn) (c : pyclass) : bool := issubclass (class_of e) c.

(** The values a [morph] call can hand back. *)
Inductive pyval : Set :=
  | PyNone
  | PyStr (s : string).

Definition is_str (v : pyval) : bool :=
  match v with PyStr _ => true | PyNone => false end.

(** Outcome of an expression: a value, or a raised exception. *)
Inductive result (A : Type) : Type :=
  | Ok (a : A)
  | Raise (e : exn).
Global Arguments Ok {A} a.
Global Arguments Raise {A} e.

Global Instance result_ret : MRet result := λ A a, Ok a.
Global Instance result_bind : MBind result := λ A B f r,
  match r with Ok a => f a | Raise e => Raise e end.
Global Instance result_fmap : FMap result := λ A B f r,
  match r with Ok a => Ok (f a) | Raise e => Raise e end.

(** A method body: it runs on the receiver's state and gives back an
    outcome and the receiver's state afterwards. *)
Definition Meth (S A : Type) : Type := S → result A * S.

Global Instance meth_ret {S} : MRet (Meth S) := λ A a s, (Ok a, s).
Global Instance meth_bind {S} : MBind (Meth S) := λ A B f m s,
  match m s with
  | (Ok a, s') => f a s'
  | (Raise e, s') => (Raise e, s')
  end.

(** [self.f] *)
Definition attr {S A} (f : S → A) : Meth S A := λ s, (Ok (f s), s).

(** An expression that does not touch the receiver. *)
Definition eval {S A} (r : result A) : Meth S A := λ s, (r, s).

(** [self.f.meth(...)]: run a method of the object held in a field. *)
Definition on_field {S T A} (get : S → T) (set : T → S → S) (m : Meth T A) : Meth S A :=
  λ s, let '(r, t') := m (get s) in (r, set t' s).

(** [d[k]]: subscription of a dictionary; [KeyError(k)] when absent. *)
Definition dict_getitem {K V} `{Countable K} (to_key : K → pykey)
    (d : gmap K V) (k : K) : result V :=
  match d !! k with
  | Some v => Ok v
  | None => Raise (KeyError (to_key k))
  end.

(** A dictionary display [{k1: v1, ..., kn: vn}]: entries are stored
    left to right, a later duplicate key overwrites an earlier one. *)
Definition dict_literal {K V} `{Countable K} (l : list (K * V)) : gmap K V :=
  foldl (λ d kv, <[kv.1 := kv.2]> d) ∅ l.

(** [tuple([properties[p] for p in property_names])]: the names are
    visited in order and the first absent one raises. *)
Fixpoint property_tuple (properties : gmap string string)
    (property_names : list string) : result (list string) :=
  match property_names with
  | [] => Ok []
  | p :: ps =>
      v ← dict_getitem KStr properties p;
      vs ← property_tuple properties ps;
      mret (v :: vs)
  end.

(** A method as the class statement declares it: its name and the
    decorators written above its [def]. *)
Record method_decl : Set := {
  meth_name : string;
  meth_decorators : list string
}.

(** What [ABCMeta] records for a class deriving from [ABC]: the names of
    the methods decorated with [@abstractmethod]. *)
Definition abstractmethods (methods : list method_decl) : list string :=
  meth_name <$> filter (λ m, "abstractmethod" ∈ meth_decorators m) methods.

(** ** morphology.py *)

Module Morpher.

(** [class Morpher(ABC)] declares the single method [morph], with no
    decorator; its body holds a docstring and nothing else. *)
Definition methods : list method_decl :=
  [ {| meth_name := "morph"; meth_decorators := [] |} ].

(** An instance carries no attribute. *)
Record t : Set := mk { }.

(** [Morpher()]: instantiation is refused when abstract methods remain. *)
Definition new : result t :=
  match abstractmethods methods with
  | [] => Ok mk
  | _ :: _ => Raise (TypeError "Can't instantiate abstract class Morpher")
  end.

(** Control falls off the end of the body: the call returns [None]. *)
Definition morph_st (word : string) (properties : gmap string string)
    : Meth t pyval :=
  mret PyNone.

Definition morph (self : t) (word : string)
    (properties : gmap string string) : result pyval :=
  (morph_st word properties self).1.

End Morpher.

Module SuffixMorpher.

Record t : Type := init {
  property_names : list string;
  suffix_map : gmap (list string) string
}.

Definition morph_st (word : string) (properties : gmap string string)
    : Meth t string :=
  names ← attr property_names;
  value ← eval (property_tuple properties names);
  table ← attr suffix_map;
  suffix ← eval (dict_getitem KTuple table value);
  mret (word +:+ suffix).

Definition morph (self : t) (word : string)
    (properties : gmap string string) : result string :=
  (morph_st word properties self).1.

End SuffixMorpher.

Module PrefixMorpher.

Record t : Type := init {
  property_names : list string;
  prefix_map : gmap (list string) string
}.

Definition morph_st (word : string) (properties : gmap string string)
    : Meth t string :=
  names ← attr property_names;
  value ← eval (property_tuple properties names);
  table ← attr prefix_map;
  prefix ← eval (dict_getitem KTuple table value);
  mret (prefix +:+ word).

Definition morph (self : t) (word : string)
    (properties : gmap string string) : result string :=
  (morph_st word properties self).1.

End PrefixMorpher.

Module EnglishVerbMorpher.

Record t : Type := mk {
  base_morpher : SuffixMorpher.t;
  negation_morpher : PrefixMorpher.t
}.

Definition set_base_morpher (b : SuffixMorpher.t) (self : t) : t :=
  mk b (negation_morpher self).
Definition set_negation_morpher (n : PrefixMorpher.t) (self : t) : t :=
  mk (base_morpher self) n.

Definition init : t :=
  {| base_morpher :=
       SuffixMorpher.init ["PERSON"; "COUNT"; "TENSE"; "POLARITY"]
         (dict_literal
            [ (["1"; "sng"; "present"; "pos"], "");
              (["1"; "plu"; "present"; "pos"], "");
              (["1"; "sng"; "perfect"; "pos"], "d");
              (["1"; "plu"; "perfect"; "pos"], "d");
              (["3"; "sng"; "present"; "pos"], "s");
              (["3"; "plu"; "present"; "pos"], "");
              (["3"; "sng"; "perfect"; "pos"], "d");
              (["3"; "plu"; "perfect"; "pos"], "d");
              (["1"; "sng"; "present"; "neg"], "");
              (["1"; "plu"; "present"; "neg"], "");
              (["1"; "sng"; "perfect"; "neg"], "");
              (["1"; "plu"; "perfect"; "neg"], "");
              (["3"; "sng"; "present"; "neg"], "");
              (["3"; "plu"; "present"; "neg"], "");
              (["3"; "sng"; "perfect"; "neg"], "");
              (["3"; "plu"; "perfect"; "neg"], "") ]);
     negation_morpher :=
       PrefixMorpher.init ["PERSON"; "COUNT"; "TENSE"; "POLARITY"]
         (dict_literal
            [ (["1"; "sng"; "present"; "pos"], "");
              (["1"; "plu"; "present"; "pos"], "");
              (["1"; "sng"; "perfect"; "pos"], "");
              (["1"; "plu"; "perfect"; "pos"], "");
              (["3"; "sng"; "present"; "pos"], "");
              (["3"; "plu"; "present"; "pos"], "");
              (["3"; "sng"; "perfect"; "pos"], "");
              (["3"; "plu"; "perfect"; "pos"], "");
              (["1"; "sng"; "present"; "neg"], "do not ");
              (["1"; "plu"; "present"; "neg"], "do not ");
              (["1"; "sng"; "perfect"; "neg"], "did not ");
              (["1"; "plu"; "perfect"; "neg"], "did not ");
              (["3"; "sng"; "present"; "neg"], "does not ");
              (["3"; "plu"; "present"; "neg"], "do not ");
              (["3"; "sng"; "perfect"; "neg"], "did not ");
              (["3"; "plu"; "perfect"; "neg"], "did not ") ]) |}.

Definition morph_st (word : string) (properties : gmap string string)
    : Meth t string :=
  suffixed ← on_field base_morpher set_base_morpher
               (SuffixMorpher.morph_st word properties);
  negated ← on_field negation_morpher set_negation_morpher
              (PrefixMorpher.morph_st suffixed properties);
  mret negated.

Definition morph (self : t) (word : string)
    (properties : gmap string string) : result string :=
  (morph_st word properties self).1.

End EnglishVerbMorpher.

Module EnglishNounMorpher.

Record t : Type := mk { base_morpher : SuffixMorpher.t }.

Definition set_base_morpher (b : SuffixMorpher.t) (self : t) : t := mk b.

Definition init : t :=
  {| base_morpher :=
       SuffixMorpher.init ["COUNT"]
         (dict_literal [ (["sng"], ""); (["plu"], "s") ]) |}.

Definition morph_st (word : string) (properties : gmap string string)
    : Meth t string :=
  on_field base_morpher set_base_morpher
    (SuffixMorpher.morph_st word properties).

Definition morph (self : t) (word : string)
    (properties : gmap string string) : result string :=
  (morph_st word properties self).1.

End EnglishNounMorpher.

Module JapaneseVerbMorpher.

Record t : Type := mk { base_morpher : SuffixMorpher.t }.

Definition set_base_morpher (b : SuffixMorpher.t) (self : t) : t := mk b.

Definition init : t :=
  {| base_morpher :=
       SuffixMorpher.init ["PERSON"; "COUNT"; "TENSE"]
         (dict_literal
            [ (["1"; "sng"; "present"], "masu");
              (["1"; "plu"; "present"], "masu");
              (["1"; "sng"; "perfect"], "mashita");
              (["1"; "plu"; "perfect"], "mashita");
              (["3"; "sng"; "present"], "masu");
              (["3"; "plu"; "present"], "masu");
              (["3"; "sng"; "perfect"], "mashita");
              (["3"; "plu"; "perfect"], "mashita") ]) |}.

Definition morph_st (word : string) (properties : gmap string string)
    : Meth t string :=
  on_field base_morpher set_base_morpher
    (SuffixMorpher.morph_st word properties).

Definition morph (self : t) (word : string)
    (properties : gmap string string) : result string :=
  (morph_st word properties self).1.

End JapaneseVerbMorpher.

(** An object of any of the classes above, and the call [o.morph(word,
    properties)] dispatched on the class of [o]. *)
Inductive morpher : Type :=
  | OMorpher (o : Morpher.t)
  | OSuffix (o : SuffixMorpher.t)
  | OPrefix (o : PrefixMorpher.t)
  | OEnglishVerb (o : EnglishVerbMorpher.t)
  | OEnglishNoun (o : EnglishNounMorpher.t)
  | OJapaneseVerb (o : JapaneseVerbMorpher.t).

Definition dispatch {T A B} (wrap : T → morpher) (f : A → B) (x : result A * T)
    : result B * morpher :=
  (f <$> x.1, wrap x.2).

Definition morph_st (word : string) (properties : gmap string string)
    : Meth morpher pyval :=
  λ self,
    match self with
    | OMorpher o => dispatch OMorpher id (Morpher.morph_st word properties o)
    | OSuffix o => dispatch OSuffix PyStr (SuffixMorpher.morph_st word properties o)
    | OPrefix o => dispatch OPrefix PyStr (PrefixMorpher.morph_st word properties o)
    | OEnglishVerb o =>
        dispatch OEnglishVerb PyStr (EnglishVerbMorpher.morph_st word properties o)
    | OEnglishNoun o =>
        dispatch OEnglishNoun PyStr (EnglishNounMorpher.morph_st word properties o)
    | OJapaneseVerb o =>
        dispatch OJapaneseVerb PyStr (JapaneseVerbMorpher.morph_st word properties o)
    end.

Definition morph (self : morpher) (word : string)
    (properties : gmap string string) : result pyval :=
  (morph_st word properties self).1.

(** The property names a morpher is configured with. *)
Definition names_read (self : morpher) : list string :=
  match self with
  | OMorpher _ => []
  | OSuffix o => SuffixMorpher.property_names o
  | OPrefix o => PrefixMorpher.property_names o
  | OEnglishVerb o =>
      SuffixMorpher.property_names (EnglishVerbMorpher.base_morpher o)
      ++ PrefixMorpher.property_names (EnglishVerbMorpher.negation_morpher o)
  | OEnglishNoun o => SuffixMorpher.property_names (EnglishNounMorpher.base_morpher o)
  | OJapaneseVerb o => SuffixMorpher.property_names (JapaneseVerbMorpher.base_morpher o)
  end.

(** The two affix morphers seen as one kind of object with a mode. *)
Inductive affix_morpher : Type :=
  | SuffixMode (o : SuffixMorpher.t)
  | PrefixMode (o : PrefixMorpher.t).

Definition affix_names (self : affix_morpher) : list string :=
  match self with
  | SuffixMode o => SuffixMorpher.property_names o
  | PrefixMode o => PrefixMorpher.property_names o
  end.

Definition affix_table (self : affix_morpher) : gmap (list string) string :=
  match self with
  | SuffixMode o => SuffixMorpher.suffix_map o
  | PrefixMode o => PrefixMorpher.prefix_map o
  end.

Definition affix_morph (self : affix_morpher) (word : string)
    (properties : gmap string string) : result string :=
  match self with
  | SuffixMode o => SuffixMorpher.morph o word properties
  | PrefixMode o => PrefixMorpher.morph o word properties
  end.

Definition english_noun_affix : affix_morpher :=
  SuffixMode (EnglishNounMorpher.base_morpher EnglishNounMorpher.init).

(** The reading under which the two failures of an affix morpher are of
    different kinds: whenever the call raises on both bundles, the two
    exceptions differ in class. *)
Definition distinct_error_kinds (self : affix_morpher) (w : string)
    (p_missing p_unknown : gmap string string) : Prop :=
  ∀ e1 e2,
    affix_morph self w p_missing = Raise e1 →
    affix_morph self w p_unknown = Raise e2 →
    class_of e1 ≠ class_of e2.

(** [r.startswith(s)] and [r.endswith(s)] *)
Definition startswith (r s : string) : bool := String.prefix s r.

Definition endswith (r s : string) : bool :=
  bool_decide (String.length s ≤ String.length r)%nat
  && String.eqb (String.substring (String.length r - String.length s) (String.length s) r) s.

(** ** corpora.py *)

(** [range(start, stop)] *)
Definition py_range (start stop : Z) : list Z := seqZ start (stop - start).

(** How a slice bound is clamped against a sequence of length [len]:
    a negative bound counts from the end. *)
Definition slice_index (len i : Z) : Z :=
  if i <? 0 then Z.max (i + len) 0 else Z.min i len.

(** [l[i:j]] *)
Definition py_slice {A} (l : list A) (i j : Z) : list A :=
  let len := Z.of_nat (length l) in
  let lo := slice_index len i in
  let hi := slice_index len j in
  take (Z.to_nat (hi - lo)) (drop (Z.to_nat lo) l).

(** [sep.join(l)] *)
Definition join (sep : string) (l : list string) : string := String.concat sep l.

(** [c.isspace()] on the code points below 256. *)
Definition isspace (c : ascii) : bool :=
  let n := N_of_ascii c in
  ((9 <=? n) && (n <=? 13) || (28 <=? n) && (n <=? 32)
   || (n =? 133) || (n =? 160))%N.

Definition flush (tok : string) : list string :=
  match tok with
  | EmptyString => []
  | String _ _ => [tok]
  end.

(** [s.split()]: the maximal runs of non-whitespace characters. *)
Fixpoint split_from (tok s : string) : list string :=
  match s with
  | EmptyString => flush tok
  | String c s' =>
      if isspace c then flush tok ++ split_from EmptyString s'
      else split_from (tok +:+ String c EmptyString) s'
  end.

Definition str_split (s : string) : list string := split_from EmptyString s.

Section stream_ngrams.

(** The built-in [float] applied to a [str]: the parsed number, or
    [None] when it raises [ValueError]. *)
Context {F : Type} (float : string → option F).

Definition is_number (s : string) : bool :=
  match float s with
  | Some _ => true
  | None => false
  end.

Definition replace_numbers (word : string) : string :=
  if is_number word then "*NUM*" else word.

(** The values the generator yields, in the order it yields them. *)
Definition stream_ngrams (lines : list string) (ngram_order : Z)
    (tokenize : string → list string) : list string :=
  line ← lines;
  let iwords := tokenize line in
  let words := replace_numbers <$> iwords in
  i ← py_range 0 (Z.of_nat (length words) - ngram_order + 1);
  let ngram := join " " (py_slice words i (i + ngram_order)) in
  [ngram].

End stream_ngrams.

(** The n-gram stream as the documentation words it: numbers are replaced
    token by token, and a line gives its windows of [n] consecutive
    tokens, from left to right. *)
Definition window {A} (n i : nat) (l : list A) : list A := take n (drop i l).

(** A token is a number when [float] gives a value for it. *)
Definition parses_as_float {F} (float : string → option F) (t : string) : bool :=
  bool_decide (is_Some (float t)).

Definition normalize_numbers (is_num : string → bool) (tokens : list string)
    : list string :=
  (λ t, if is_num t then "*NUM*" else t) <$> tokens.

Definition line_ngrams (is_num : string → bool) (n : nat) (tokens : list string)
    : list string :=
  let words := normalize_numbers is_num tokens in
  (λ i, join " " (window n i words)) <$> seq 0 (length words + 1 - n).

(** [float] restricted to unsigned decimal integer literals, enough to
    run the generator on sample text. *)
Definition is_digit (c : ascii) : bool :=
  let n := N_of_ascii c in ((48 <=? n) && (n <=? 57))%N.

Fixpoint digits_value (acc : N) (s : string) : option N :=
  match s with
  | EmptyString => Some acc
  | String c s' =>
      if is_digit c then digits_value (10 * acc + (N_of_ascii c - 48))%N s'
      else None
  end.

Definition float_of_digits (s : string) : option N :=
  match s with
  | EmptyString => None
  | String _ _ => digits_value 0%N s
  end.

(** Property bundles of the worked scenarios. *)
Definition bundle (person count tense polarity : string) : gmap string string :=
  dict_literal
    [ ("PERSON", person); ("COUNT", count); ("TENSE", tense); ("POLARITY", polarity) ].

(** The outcome of an affix lookup, with the way the affix is attached
    left open. *)
Definition affix_outcome (names : list string) (table : gmap (list string) string)
    (attach : string → string) (p : gmap string string) : result string :=
  match property_tuple p names with
  | Ok v =>
      match table !! v with
      | Some a => Ok (attach a)
      | None => Raise (KeyError (KTuple v))
      end
  | Raise e => Raise e
  end.

(** The value domains of the catalog entries. *)
Definition persons : list string := ["1"; "3"].
Definition counts : list string := ["sng"; "plu"].
Definition tenses : list string := ["present"; "perfect"].
Definition polarities : list string := ["pos"; "neg"].

(** Splits a membership in a literal list into its cases. *)
Ltac cases_of_elem :=
  repeat match goal with
    | H : _ ∈ [] |- _ => by apply elem_of_nil in H
    | H : _ ∈ _ :: _ |- _ => apply elem_of_cons in H as [->|H]
    end.

(** ** The rest of corpora.py *)

(** [s.lstrip()], [s.rstrip()] and [s.strip()]: whitespace is removed at
    the left end, at the right end, at both. *)
Fixpoint str_lstrip (s : string) : string :=
  match s with
  | EmptyString => EmptyString
  | String c s' => if isspace c then str_lstrip s' else s
  end.

Fixpoint str_rstrip (s : string) : string :=
  match s with
  | EmptyString => EmptyString
  | String c s' =>
      match str_rstrip s' with
      | EmptyString => if isspace c then EmptyString else String c EmptyString
      | String _ _ as r => String c r
      end
  end.

Definition str_strip (s : string) : string := str_rstrip (str_lstrip s).

Section stream_lines.

(** What iterating over the text file opened for reading under a name
    gives: its lines in order, each with its line end. *)
Context (reader : string → list string).

(** The values the generator yields, in the order it yields them. *)
Definition stream_lines (filename : string) : list string :=
  line ← reader filename;
  [str_strip line].

End stream_lines.

(** No character of [s] is whitespace. *)
Fixpoint no_space (s : string) : bool :=
  match s with
  | EmptyString => true
  | String c s' => negb (isspace c) && no_space s'
  end.

(** Every character of [s] is whitespace. *)
Fixpoint all_space (s : string) : bool :=
  match s with
  | EmptyString => true
  | String c s' => isspace c && all_space s'
  end.

(** What the default tokenizer produces: non-empty words free of
    whitespace. *)
Definition token (t : string) : Prop := t ≠ EmptyString ∧ no_space t = true.

(** The English verb tables read as rules of grammar. *)
Definition english_verb_suffix (person count tense polarity : string) : string :=
  if String.eqb polarity "neg" then ""
  else if String.eqb tense "perfect" then "d"
  else if String.eqb person "3" && String.eqb count "sng" then "s"
  else "".

Definition english_verb_negation (person count tense polarity : string) : string :=
  if String.eqb polarity "pos" then ""
  else if String.eqb tense "perfect" then "did not "
  else if String.eqb person "3" && String.eqb count "sng" then "does not "
  else "do not ".

(** How each mode attaches the affix to the stem. *)
Definition attach (self : affix_morpher) (w a : string) : string :=
  match self with
  | SuffixMode _ => w +:+ a
  | PrefixMode _ => a +:+ w
  end.

(** Goes through the entries of a literal table one by one. *)
Ltac each_entry H :=
  repeat (apply elem_of_cons in H as [H|H]; [simplify_eq|]);
  try (by apply elem_of_nil in H).

Ltac in_literal :=
  repeat first [apply list_elem_of_here | apply list_elem_of_further].

(** ** Strings *)

Lemma append_cons (c : ascii) (s t : string) :
  String c s +:+ t = String c (s +:+ t).
Proof. reflexivity. Qed.

Lemma append_empty_r (s : string) : s +:+ "" = s.
Proof.
  induction s as [|c s IH]; [done|]. by rewrite append_cons, IH.
Qed.

Lemma length_append (s1 s2 : string) :
  String.length (s1 +:+ s2) = (String.length s1 + String.length s2)%nat.
Proof.
  induction s1 as [|c s1 IH]; [done|].
  rewrite append_cons; simpl. by rewrite IH.
Qed.

Lemma prefix_append (s1 s2 : string) : String.prefix s1 (s1 +:+ s2) = true.
Proof.
  induction s1 as [|c s1 IH].
  - by destruct s2.
  - rewrite append_cons; simpl.
    destruct (ascii_dec c c); [exact IH | congruence].
Qed.

Lemma substring_all (s : string) : String.substring 0 (String.length s) s = s.
Proof. induction s as [|c s IH]; simpl; [done | by rewrite IH]. Qed.

Lemma substring_append_skip (s1 s2 : string) (m : nat) :
  String.substring (String.length s1) m (s1 +:+ s2) = String.substring 0 m s2.
Proof.
  induction s1 as [|c s1 IH]; [done|].
  rewrite append_cons; simpl. exact IH.
Qed.

Lemma startswith_append (w a : string) : startswith (w +:+ a) w = true.
Proof. apply prefix_append. Qed.

Lemma endswith_append (a w : string) : endswith (a +:+ w) w = true.
Proof.
  unfold endswith. rewrite length_append.
  apply andb_true_iff; split.
  - apply bool_decide_eq_true. lia.
  - replace (String.length a + String.length w - String.length w)%nat
      with (String.length a) by lia.
    rewrite substring_append_skip, substring_all. apply String.eqb_refl.
Qed.

(** ** The key tuple *)

Lemma property_tuple_cons (p : gmap string string) (n : string) (ns : list string) :
  property_tuple p (n :: ns)
  = match p !! n with
    | Some v =>
        match property_tuple p ns with
        | Ok vs => Ok (v :: vs)
        | Raise e => Raise e
        end
    | None => Raise (KeyError (KStr n))
    end.
Proof.
  simpl. unfold dict_getitem. destruct (p !! n); [|done].
  simpl. by destruct (property_tuple p ns).
Qed.

Lemma property_tuple_ext (p1 p2 : gmap string string) (names : list string) :
  (∀ n, n ∈ names → p1 !! n = p2 !! n) →
  property_tuple p1 names = property_tuple p2 names.
Proof.
  induction names as [|n ns IH]; intros Hagree; [done|].
  rewrite !property_tuple_cons.
  rewrite <- (Hagree n) by apply list_elem_of_here.
  rewrite IH; [done|]. intros m Hm. apply Hagree. by apply list_elem_of_further.
Qed.

Lemma property_tuple_present (p : gmap string string) (names : list string) :
  (∀ n, n ∈ names → is_Some (p !! n)) →
  ∃ vs, property_tuple p names = Ok vs.
Proof.
  induction names as [|n ns IH]; intros Hall; [by exists []|].
  rewrite property_tuple_cons.
  destruct (Hall n) as [v ->]; [apply list_elem_of_here|].
  destruct IH as [vs ->]; [|by exists (v :: vs)].
  intros m Hm. apply Hall. by apply list_elem_of_further.
Qed.

(** With a name absent, the comprehension raises [KeyError] on the
    first absent name. *)
Lemma property_tuple_missing (p : gmap string string) (names : list string) :
  (∃ n, n ∈ names ∧ p !! n = None) →
  ∃ pre n post,
    names = pre ++ n :: post
    ∧ (∀ m, m ∈ pre → is_Some (p !! m))
    ∧ p !! n = None
    ∧ property_tuple p names = Raise (KeyError (KStr n)).
Proof.
  induction names as [|n ns IH]; intros (m & Hm & Hnone).
  - by apply elem_of_nil in Hm.
  - rewrite property_tuple_cons. destruct (p !! n) as [v|] eqn:Hn.
    + apply elem_of_cons in Hm as [->|Hm]; [congruence|].
      destruct IH as (pre & n' & post & -> & Hpre & Hn' & ->); [by exists m|].
      exists (n :: pre), n', post. split_and!; try done.
      intros k [->|Hk]%elem_of_cons; [by rewrite Hn | by apply Hpre].
    + exists [], n, ns. split_and!; try done.
      intros k Hk. by apply elem_of_nil in Hk.
Qed.

(** ** What a call computes, and what it leaves behind *)

Lemma suffix_morph_st (self : SuffixMorpher.t) (w : string) (p : gmap string string) :
  SuffixMorpher.morph_st w p self
  = (affix_outcome (SuffixMorpher.property_names self) (SuffixMorpher.suffix_map self)
       (λ a, w +:+ a) p, self).
Proof.
  unfold SuffixMorpher.morph_st, affix_outcome, attr, eval, mbind, meth_bind; simpl.
  destruct (property_tuple p _) as [v|e]; [|done].
  unfold dict_getitem. by destruct (_ !! v).
Qed.

Lemma prefix_morph_st (self : PrefixMorpher.t) (w : string) (p : gmap string string) :
  PrefixMorpher.morph_st w p self
  = (affix_outcome (PrefixMorpher.property_names self) (PrefixMorpher.prefix_map self)
       (λ a, a +:+ w) p, self).
Proof.
  unfold PrefixMorpher.morph_st, affix_outcome, attr, eval, mbind, meth_bind; simpl.
  destruct (property_tuple p _) as [v|e]; [|done].
  unfold dict_getitem. by destruct (_ !! v).
Qed.

Lemma english_verb_morph_st (self : EnglishVerbMorpher.t) (w : string)
    (p : gmap string string) :
  EnglishVerbMorpher.morph_st w p self
  = (suffixed ← SuffixMorpher.morph (EnglishVerbMorpher.base_morpher self) w p;
     PrefixMorpher.morph (EnglishVerbMorpher.negation_morpher self) suffixed p,
     self).
Proof.
  unfold EnglishVerbMorpher.morph_st, SuffixMorpher.morph, PrefixMorpher.morph.
  unfold on_field, mbind at 1 2, meth_bind; simpl.
  rewrite suffix_morph_st; simpl.
  destruct self as [b n]; simpl.
  destruct (affix_outcome _ _ _ p) as [s|e]; simpl; [|done].
  rewrite !prefix_morph_st; simpl.
  by destruct (affix_outcome _ _ _ p).
Qed.

Lemma english_verb_morph_steps (self : EnglishVerbMorpher.t) (w : string)
    (p : gmap string string) :
  EnglishVerbMorpher.morph self w p
  = match SuffixMorpher.morph (EnglishVerbMorpher.base_morpher self) w p with
    | Ok suffixed =>
        PrefixMorpher.morph (EnglishVerbMorpher.negation_morpher self) suffixed p
    | Raise e => Raise e
    end.
Proof.
  unfold EnglishVerbMorpher.morph. by rewrite english_verb_morph_st.
Qed.

Lemma english_noun_morph_st (self : EnglishNounMorpher.t) (w : string)
    (p : gmap string string) :
  EnglishNounMorpher.morph_st w p self
  = (SuffixMorpher.morph (EnglishNounMorpher.base_morpher self) w p, self).
Proof.
  unfold EnglishNounMorpher.morph_st, SuffixMorpher.morph, on_field.
  rewrite suffix_morph_st. by destruct self.
Qed.

Lemma japanese_verb_morph_st (self : JapaneseVerbMorpher.t) (w : string)
    (p : gmap string string) :
  JapaneseVerbMorpher.morph_st w p self
  = (SuffixMorpher.morph (JapaneseVerbMorpher.base_morpher self) w p, self).
Proof.
  unfold JapaneseVerbMorpher.morph_st, SuffixMorpher.morph, on_field.
  rewrite suffix_morph_st. by destruct self.
Qed.

Lemma affix_morph_outcome (self : affix_morpher) (w : string) (p : gmap string string) :
  affix_morph self w p
  = affix_outcome (affix_names self) (affix_table self)
      (match self with
       | SuffixMode _ => λ a, w +:+ a
       | PrefixMode _ => λ a, a +:+ w
       end) p.
Proof.
  destruct self as [o|o]; simpl.
  - unfold SuffixMorpher.morph. by rewrite suffix_morph_st.
  - unfold PrefixMorpher.morph. by rewrite prefix_morph_st.
Qed.

Lemma property_tuple_Forall2 (p : gmap string string) (names vs : list string) :
  Forall2 (λ n v, p !! n = Some v) names vs → property_tuple p names = Ok vs.
Proof.
  induction 1 as [|n v ns vs Hn _ IH]; [done|].
  by rewrite property_tuple_cons, Hn, IH.
Qed.

Lemma affix_outcome_known (names : list string) (table : gmap (list string) string)
    (attach : string → string) (p : gmap string string) (vs : list string) (a : string) :
  Forall2 (λ n v, p !! n = Some v) names vs →
  table !! vs = Some a →
  affix_outcome names table attach p = Ok (attach a).
Proof.
  intros Hvs Ha. unfold affix_outcome.
  by rewrite (property_tuple_Forall2 _ _ _ Hvs), Ha.
Qed.

Lemma affix_outcome_ext (names : list string) (table : gmap (list string) string)
    (attach : string → string) (p1 p2 : gmap string string) :
  (∀ n, n ∈ names → p1 !! n = p2 !! n) →
  affix_outcome names table attach p1 = affix_outcome names table attach p2.
Proof.
  intros Hagree. unfold affix_outcome. by rewrite (property_tuple_ext p1 p2).
Qed.

(** ** The rule catalog *)

Lemma english_verb_tables_cover (person count tense polarity : string) :
  person ∈ persons → count ∈ counts → tense ∈ tenses → polarity ∈ polarities →
  is_Some (SuffixMorpher.suffix_map (EnglishVerbMorpher.base_morpher EnglishVerbMorpher.init)
             !! [person; count; tense; polarity])
  ∧ is_Some (PrefixMorpher.prefix_map
               (EnglishVerbMorpher.negation_morpher EnglishVerbMorpher.init)
               !! [person; count; tense; polarity]).
Proof.
  unfold persons, counts, tenses, polarities. intros Hp Hc Ht Hpol.
  cases_of_elem; split; vm_compute; eauto.
Qed.

Lemma japanese_verb_table (person count tense : string) :
  person ∈ persons → count ∈ counts → tense ∈ tenses →
  SuffixMorpher.suffix_map (JapaneseVerbMorpher.base_morpher JapaneseVerbMorpher.init)
    !! [person; count; tense]
  = Some (if String.eqb tense "present" then "masu" else "mashita").
Proof.
  unfold persons, counts, tenses. intros Hp Hc Ht.
  cases_of_elem; vm_compute; reflexivity.
Qed.

(** ** Worked scenarios *)

(** C1: the English verb morpher turns the stem "walk" into "walks"
    (3rd person singular present, positive), "do not walk" (1st singular
    present, negative), "does not walk" (3rd singular present, negative)
    and "did not walk" (1st plural perfect, negative). *)
Theorem english_verb_walk :
  EnglishVerbMorpher.morph EnglishVerbMorpher.init "walk"
    (bundle "3" "sng" "present" "pos") = Ok "walks"
  ∧ EnglishVerbMorpher.morph EnglishVerbMorpher.init "walk"
      (bundle "1" "sng" "present" "neg") = Ok "do not walk"
  ∧ EnglishVerbMorpher.morph EnglishVerbMorpher.init "walk"
      (bundle "3" "sng" "present" "neg") = Ok "does not walk"
  ∧ EnglishVerbMorpher.morph EnglishVerbMorpher.init "walk"
      (bundle "1" "plu" "perfect" "neg") = Ok "did not walk".
Proof. split_and!; vm_compute; reflexivity. Qed.

(** ** Failures *)

(** C2: when a required property name is absent from the bundle, or the
    projected tuple has no entry in the rule table, an affix morpher (in
    either mode) raises an exception that is a [LookupError], and returns
    no string at all. *)
Theorem affix_morph_lookup_error (self : affix_morpher) (w : string)
    (p : gmap string string) :
  (∃ n, n ∈ affix_names self ∧ p !! n = None)
  ∨ (∃ v, property_tuple p (affix_names self) = Ok v ∧ affix_table self !! v = None) →
  ∃ e, affix_morph self w p = Raise e
       ∧ isinstance e cLookupError = true
       ∧ ∀ r, affix_morph self w p ≠ Ok r.
Proof.
  intros H. rewrite affix_morph_outcome. unfold affix_outcome.
  destruct H as [Hmiss | (v & Hv & Hnone)].
  - apply property_tuple_missing in Hmiss as (pre & n & post & _ & _ & _ & ->).
    exists (KeyError (KStr n)). split_and!; done.
  - rewrite Hv, Hnone. exists (KeyError (KTuple v)). split_and!; done.
Qed.

Lemma affix_morph_lookup_error_witness :
  ∃ e, affix_morph (SuffixMode (EnglishNounMorpher.base_morpher EnglishNounMorpher.init))
         "cat" ∅ = Raise e
       ∧ isinstance e cLookupError = true
       ∧ ∀ r, affix_morph (SuffixMode (EnglishNounMorpher.base_morpher EnglishNounMorpher.init))
                "cat" ∅ ≠ Ok r.
Proof.
  apply affix_morph_lookup_error. left. exists "COUNT". split.
  - apply list_elem_of_here.
  - reflexivity.
Defined.

(** ** Composition *)

(** C3: the English verb morpher applies its suffix morpher to the stem
    and then its negation prefix morpher to the suffixed word, handing
    the same property bundle to both; a failure of the first step is the
    failure of the whole call. *)
Theorem english_verb_composition (self : EnglishVerbMorpher.t) (w : string)
    (p : gmap string string) :
  EnglishVerbMorpher.morph self w p
  = match SuffixMorpher.morph (EnglishVerbMorpher.base_morpher self) w p with
    | Ok suffixed =>
        PrefixMorpher.morph (EnglishVerbMorpher.negation_morpher self) suffixed p
    | Raise e => Raise e
    end.
Proof. apply english_verb_morph_steps. Qed.

(** ** Shape of the result *)

(** C4: with every required name present and the projected tuple in the
    rule table, a suffix morpher returns a word that starts with the stem
    and is at least as long, and a prefix morpher returns a word that
    ends with the stem. *)
Theorem affix_morph_keeps_stem (self : affix_morpher) (w : string)
    (p : gmap string string) :
  (∀ n, n ∈ affix_names self → is_Some (p !! n)) →
  (∀ v, property_tuple p (affix_names self) = Ok v → is_Some (affix_table self !! v)) →
  ∃ r, affix_morph self w p = Ok r
       ∧ match self with
         | SuffixMode _ =>
             startswith r w = true ∧ (String.length w ≤ String.length r)%nat
         | PrefixMode _ => endswith r w = true
         end.
Proof.
  intros Hnames Hcovered. rewrite affix_morph_outcome. unfold affix_outcome.
  destruct (property_tuple_present p _ Hnames) as [v Hv]. rewrite Hv.
  destruct (Hcovered v Hv) as [a ->].
  destruct self as [o|o]; eexists; (split; [reflexivity|]).
  - split; [apply startswith_append | rewrite length_append; lia].
  - apply endswith_append.
Qed.

Lemma affix_morph_keeps_stem_witness :
  ∃ r, affix_morph
         (PrefixMode (EnglishVerbMorpher.negation_morpher EnglishVerbMorpher.init))
         "walk" (bundle "3" "sng" "present" "neg") = Ok r
       ∧ endswith r "walk" = true.
Proof.
  apply (affix_morph_keeps_stem
           (PrefixMode (EnglishVerbMorpher.negation_morpher EnglishVerbMorpher.init))).
  - intros n Hn. simpl in Hn. cases_of_elem; vm_compute; eauto.
  - intros v Hv. vm_compute in Hv. injection Hv as <-. vm_compute. eauto.
Defined.

(** ** The noun and Japanese verb entries *)

Lemma english_noun_morph (w : string) (p : gmap string string) (count a : string) :
  p !! "COUNT" = Some count →
  SuffixMorpher.suffix_map (EnglishNounMorpher.base_morpher EnglishNounMorpher.init)
    !! [count] = Some a →
  EnglishNounMorpher.morph EnglishNounMorpher.init w p = Ok (w +:+ a).
Proof.
  intros Hc Ha. unfold EnglishNounMorpher.morph.
  rewrite english_noun_morph_st. unfold SuffixMorpher.morph.
  rewrite suffix_morph_st. simpl fst.
  apply (affix_outcome_known _ _ _ _ [count]); [|exact Ha].
  repeat constructor. exact Hc.
Qed.

Lemma japanese_verb_morph (w : string) (p : gmap string string)
    (person count tense : string) :
  person ∈ persons → count ∈ counts → tense ∈ tenses →
  p !! "PERSON" = Some person → p !! "COUNT" = Some count →
  p !! "TENSE" = Some tense →
  JapaneseVerbMorpher.morph JapaneseVerbMorpher.init w p
  = Ok (w +:+ (if String.eqb tense "present" then "masu" else "mashita")).
Proof.
  intros Hp Hc Ht Hperson Hcount Htense. unfold JapaneseVerbMorpher.morph.
  rewrite japanese_verb_morph_st. unfold SuffixMorpher.morph.
  rewrite suffix_morph_st. simpl fst.
  apply (affix_outcome_known _ _ _ _ [person; count; tense]).
  - by repeat constructor.
  - by apply japanese_verb_table.
Qed.

(** C5: the English noun morpher returns the bare stem for COUNT sng and
    the stem followed by "s" for COUNT plu; the Japanese verb morpher
    returns the stem followed by "masu" for TENSE present and by
    "mashita" for TENSE perfect, whatever PERSON (1 or 3) and COUNT (sng
    or plu) are. *)
Theorem noun_and_japanese_verb_forms (w : string) (p : gmap string string) :
  (p !! "COUNT" = Some "sng" →
   EnglishNounMorpher.morph EnglishNounMorpher.init w p = Ok w)
  ∧ (p !! "COUNT" = Some "plu" →
     EnglishNounMorpher.morph EnglishNounMorpher.init w p = Ok (w +:+ "s"))
  ∧ (∀ person count,
       person ∈ persons → count ∈ counts →
       p !! "PERSON" = Some person → p !! "COUNT" = Some count →
       (p !! "TENSE" = Some "present" →
        JapaneseVerbMorpher.morph JapaneseVerbMorpher.init w p = Ok (w +:+ "masu"))
       ∧ (p !! "TENSE" = Some "perfect" →
          JapaneseVerbMorpher.morph JapaneseVerbMorpher.init w p
          = Ok (w +:+ "mashita"))).
Proof.
  split_and!.
  - intros Hc. rewrite <- (append_empty_r w) at 2.
    by apply (english_noun_morph w p "sng").
  - intros Hc. by apply (english_noun_morph w p "plu").
  - intros person count Hp Hc Hperson Hcount. split; intros Htense.
    + apply (japanese_verb_morph w p person count "present"); try done.
      apply list_elem_of_here.
    + apply (japanese_verb_morph w p person count "perfect"); try done.
      apply list_elem_of_further, list_elem_of_here.
Qed.

Lemma noun_and_japanese_verb_forms_witness :
  EnglishNounMorpher.morph EnglishNounMorpher.init "cat" {[ "COUNT" := "sng" ]}
  = Ok "cat"
  ∧ EnglishNounMorpher.morph EnglishNounMorpher.init "cat" {[ "COUNT" := "plu" ]}
    = Ok "cats"
  ∧ JapaneseVerbMorpher.morph JapaneseVerbMorpher.init "tabe"
      (dict_literal [("PERSON", "3"); ("COUNT", "sng"); ("TENSE", "perfect")])
    = Ok "tabemashita".
Proof.
  split_and!.
  - apply (noun_and_japanese_verb_forms "cat" {[ "COUNT" := "sng" ]}).
    reflexivity.
  - apply (noun_and_japanese_verb_forms "cat" {[ "COUNT" := "plu" ]}).
    reflexivity.
  - apply (proj2 (proj2 (noun_and_japanese_verb_forms "tabe"
             (dict_literal [("PERSON", "3"); ("COUNT", "sng"); ("TENSE", "perfect")])))
             "3" "sng").
    + apply list_elem_of_further, list_elem_of_here.
    + apply list_elem_of_here.
    + reflexivity.
    + reflexivity.
    + reflexivity.
Defined.

(** ** Coverage of the English verb tables *)

(** C6: for PERSON in 1, 3, COUNT in sng, plu, TENSE in present, perfect
    and POLARITY in pos, neg, both rule tables of the English verb
    morpher hold the projected tuple, and the call returns a word. *)
Theorem english_verb_total (w : string) (p : gmap string string)
    (person count tense polarity : string) :
  person ∈ persons → count ∈ counts → tense ∈ tenses → polarity ∈ polarities →
  p !! "PERSON" = Some person → p !! "COUNT" = Some count →
  p !! "TENSE" = Some tense → p !! "POLARITY" = Some polarity →
  is_Some (SuffixMorpher.suffix_map (EnglishVerbMorpher.base_morpher EnglishVerbMorpher.init)
             !! [person; count; tense; polarity])
  ∧ is_Some (PrefixMorpher.prefix_map
               (EnglishVerbMorpher.negation_morpher EnglishVerbMorpher.init)
               !! [person; count; tense; polarity])
  ∧ ∃ r, EnglishVerbMorpher.morph EnglishVerbMorpher.init w p = Ok r.
Proof.
  intros Hp Hc Ht Hpol Hperson Hcount Htense Hpolarity.
  destruct (english_verb_tables_cover person count tense polarity Hp Hc Ht Hpol)
    as [[a Ha] [b Hb]].
  split_and!; [by exists a | by exists b |].
  assert (Forall2 (λ n v, p !! n = Some v)
            ["PERSON"; "COUNT"; "TENSE"; "POLARITY"] [person; count; tense; polarity])
    as Hvs by (by repeat constructor).
  rewrite english_verb_morph_steps.
  unfold SuffixMorpher.morph, PrefixMorpher.morph.
  rewrite suffix_morph_st. simpl fst.
  rewrite (affix_outcome_known _ _ _ _ _ a Hvs Ha).
  rewrite prefix_morph_st. simpl fst.
  rewrite (affix_outcome_known _ _ _ _ _ b Hvs Hb). eauto.
Qed.

Lemma english_verb_total_witness :
  ∃ r, EnglishVerbMorpher.morph EnglishVerbMorpher.init "walk"
         (bundle "1" "plu" "perfect" "neg") = Ok r.
Proof.
  apply (english_verb_total "walk" (bundle "1" "plu" "perfect" "neg")
           "1" "plu" "perfect" "neg").
  - apply list_elem_of_here.
  - apply list_elem_of_further, list_elem_of_here.
  - apply list_elem_of_further, list_elem_of_here.
  - apply list_elem_of_further, list_elem_of_here.
  - reflexivity.
  - reflexivity.
  - reflexivity.
  - reflexivity.
Defined.

(** ** Purity *)

Lemma morph_st_state (self : morpher) (w : string) (p : gmap string string) :
  (morph_st w p self).2 = self.
Proof.
  destruct self as [o|o|o|o|o|o]; unfold morph_st, dispatch.
  - by destruct o.
  - by rewrite suffix_morph_st.
  - by rewrite prefix_morph_st.
  - by rewrite english_verb_morph_st.
  - by rewrite english_noun_morph_st.
  - by rewrite japanese_verb_morph_st.
Qed.

Lemma suffix_morph_ext (o : SuffixMorpher.t) (w : string) (p1 p2 : gmap string string) :
  (∀ n, n ∈ SuffixMorpher.property_names o → p1 !! n = p2 !! n) →
  SuffixMorpher.morph o w p1 = SuffixMorpher.morph o w p2.
Proof.
  intros Hagree. unfold SuffixMorpher.morph. rewrite !suffix_morph_st.
  simpl. by apply affix_outcome_ext.
Qed.

Lemma prefix_morph_ext (o : PrefixMorpher.t) (w : string) (p1 p2 : gmap string string) :
  (∀ n, n ∈ PrefixMorpher.property_names o → p1 !! n = p2 !! n) →
  PrefixMorpher.morph o w p1 = PrefixMorpher.morph o w p2.
Proof.
  intros Hagree. unfold PrefixMorpher.morph. rewrite !prefix_morph_st.
  simpl. by apply affix_outcome_ext.
Qed.

Lemma morph_ext (self : morpher) (w : string) (p1 p2 : gmap string string) :
  (∀ n, n ∈ names_read self → p1 !! n = p2 !! n) →
  morph self w p1 = morph self w p2.
Proof.
  intros Hagree. unfold morph.
  destruct self as [o|o|o|o|o|o]; unfold morph_st, dispatch; simpl in *.
  - done.
  - f_equal. by apply suffix_morph_ext.
  - f_equal. by apply prefix_morph_ext.
  - rewrite !english_verb_morph_st; simpl. f_equal.
    rewrite (suffix_morph_ext _ w p1 p2)
      by (intros n Hn; apply Hagree, elem_of_app; by left).
    destruct (SuffixMorpher.morph _ w p2) as [suffixed|e]; [|done]. simpl.
    apply prefix_morph_ext. intros n Hn. apply Hagree, elem_of_app. by right.
  - rewrite !english_noun_morph_st; simpl. f_equal. by apply suffix_morph_ext.
  - rewrite !japanese_verb_morph_st; simpl. f_equal. by apply suffix_morph_ext.
Qed.

(** C7: a call reads the bundle only at the morpher's property names and
    changes nothing in the morpher. Two calls in a row on the same
    morpher and stem, with bundles that agree on those names (in
    particular with the same bundle), give the same outcome, and the
    morpher is after each call what it was before. *)
Theorem morph_reads_names_only (self : morpher) (w : string)
    (p1 p2 : gmap string string) :
  (∀ n, n ∈ names_read self → p1 !! n = p2 !! n) →
  (morph_st w p1 self).1 = (morph_st w p2 (morph_st w p1 self).2).1
  ∧ (morph_st w p1 self).2 = self
  ∧ (morph_st w p2 (morph_st w p1 self).2).2 = self
  ∧ morph self w p1 = morph self w p2.
Proof.
  intros Hagree. rewrite !morph_st_state.
  pose proof (morph_ext self w p1 p2 Hagree) as Hext.
  split_and!; done.
Qed.

Lemma morph_reads_names_only_witness :
  morph (OEnglishNoun EnglishNounMorpher.init) "cat" {[ "COUNT" := "plu" ]}
  = morph (OEnglishNoun EnglishNounMorpher.init) "cat"
      (dict_literal [("COUNT", "plu"); ("TENSE", "perfect")]).
Proof.
  apply (morph_reads_names_only (OEnglishNoun EnglishNounMorpher.init) "cat"
           {[ "COUNT" := "plu" ]}
           (dict_literal [("COUNT", "plu"); ("TENSE", "perfect")])).
  intros n Hn. simpl in Hn. apply list_elem_of_singleton in Hn. subst n.
  reflexivity.
Defined.

(** ** Kinds of failure *)

(** C8, as stated, fails: a bundle without COUNT and a bundle whose
    COUNT value is not in the table both make the English noun suffix
    morpher raise an exception of one and the same class. *)
Lemma error_kinds_not_distinct :
  ("COUNT" ∈ affix_names english_noun_affix
   ∧ (∅ : gmap string string) !! "COUNT" = None)
  ∧ (property_tuple {[ "COUNT" := "dual" ]} (affix_names english_noun_affix)
     = Ok ["dual"]
     ∧ affix_table english_noun_affix !! ["dual"] = None)
  ∧ affix_morph english_noun_affix "cat" ∅ = Raise (KeyError (KStr "COUNT"))
  ∧ affix_morph english_noun_affix "cat" {[ "COUNT" := "dual" ]}
    = Raise (KeyError (KTuple ["dual"]))
  ∧ ¬ distinct_error_kinds english_noun_affix "cat" ∅ {[ "COUNT" := "dual" ]}.
Proof.
  split_and!; try (vm_compute; reflexivity).
  - apply list_elem_of_here.
  - intros Hdistinct.
    by apply (Hdistinct (KeyError (KStr "COUNT")) (KeyError (KTuple ["dual"]))).
Qed.

(** C8, amended: an absent property name and an uncovered value tuple
    both raise the built-in [KeyError]. The first carries the absent name
    (a string), the second the projected tuple; the class is the same
    and only the key carried tells the two apart. *)
Theorem missing_and_unknown_both_KeyError (self : affix_morpher) (w : string)
    (p1 p2 : gmap string string) :
  (∃ n, n ∈ affix_names self ∧ p1 !! n = None) →
  (∃ v, property_tuple p2 (affix_names self) = Ok v ∧ affix_table self !! v = None) →
  ∃ n v,
    (n ∈ affix_names self ∧ p1 !! n = None
     ∧ affix_morph self w p1 = Raise (KeyError (KStr n)))
    ∧ (property_tuple p2 (affix_names self) = Ok v
       ∧ affix_morph self w p2 = Raise (KeyError (KTuple v)))
    ∧ class_of (KeyError (KStr n)) = cKeyError
    ∧ class_of (KeyError (KTuple v)) = cKeyError
    ∧ KeyError (KStr n) ≠ KeyError (KTuple v).
Proof.
  intros Hmiss (v & Hv & Hnone).
  apply property_tuple_missing in Hmiss as (pre & n & post & Hnames & _ & Hn & Hraise).
  exists n, v. rewrite !affix_morph_outcome. unfold affix_outcome.
  rewrite Hraise, Hv, Hnone. split_and!; try done.
  rewrite Hnames. apply elem_of_app. right. apply list_elem_of_here.
Qed.

Lemma missing_and_unknown_both_KeyError_witness :
  ∃ n v,
    ("COUNT" = n ∧ ["dual"] = v)
    ∧ affix_morph english_noun_affix "cat" ∅ = Raise (KeyError (KStr n))
    ∧ affix_morph english_noun_affix "cat" {[ "COUNT" := "dual" ]}
      = Raise (KeyError (KTuple v)).
Proof.
  destruct (missing_and_unknown_both_KeyError english_noun_affix "cat"
              ∅ {[ "COUNT" := "dual" ]})
    as (n & v & (_ & _ & Hn) & (_ & Hv) & _).
  - exists "COUNT". split; [apply list_elem_of_here | reflexivity].
  - exists ["dual"]. split; reflexivity.
  - exists n, v. split_and!; [| | exact Hn | exact Hv].
    + vm_compute in Hn. by injection Hn.
    + vm_compute in Hv. by injection Hv.
Defined.

(** ** The base class *)

(** C10: no method of [Morpher] is marked abstract, so [Morpher()]
    builds an instance; on every stem and bundle its [morph] returns
    [None], which is not a string, and raises nothing. *)
Theorem base_morpher_returns_None :
  abstractmethods Morpher.methods = []
  ∧ Morpher.new = Ok Morpher.mk
  ∧ ∀ (self : Morpher.t) (w : string) (p : gmap string string),
      Morpher.morph self w p = Ok PyNone
      ∧ morph (OMorpher self) w p = Ok PyNone
      ∧ is_str PyNone = false.
Proof. split_and!; [reflexivity | reflexivity | intros self w p; by split_and!]. Qed.

(** ** n-grams *)

Lemma bind_yield {A B} (g : A → B) (l : list A) : l ≫= (λ i, [g i]) = g <$> l.
Proof. induction l as [|x l IH]; [done|]. rewrite bind_cons, IH. done. Qed.

Lemma slice_index_in_range (len i : Z) : 0 ≤ i ≤ len → slice_index len i = i.
Proof.
  intros Hi. unfold slice_index.
  destruct (Z.ltb_spec i 0); [lia|]. lia.
Qed.

Lemma py_slice_window {A} (l : list A) (i n : nat) :
  (i + n ≤ length l)%nat →
  py_slice l (Z.of_nat i) (Z.of_nat i + Z.of_nat n) = window n i l.
Proof.
  intros Hin. unfold py_slice, window.
  rewrite !slice_index_in_range by lia.
  rewrite Nat2Z.id. f_equal. lia.
Qed.

Lemma length_window {A} (l : list A) (i n : nat) :
  (i + n ≤ length l)%nat → length (window n i l) = n.
Proof.
  intros Hin. unfold window. rewrite length_take, length_drop. lia.
Qed.

Lemma length_normalize_numbers (is_num : string → bool) (tokens : list string) :
  length (normalize_numbers is_num tokens) = length tokens.
Proof. unfold normalize_numbers. apply length_fmap. Qed.

Section stream_ngrams_facts.

Context {F : Type} (float : string → option F).

Lemma replace_numbers_normalize (tokens : list string) :
  replace_numbers float <$> tokens = normalize_numbers (is_number float) tokens.
Proof. reflexivity. Qed.

Lemma line_loop (words : list string) (ngram_order : Z) :
  0 ≤ ngram_order →
  (py_range 0 (Z.of_nat (length words) - ngram_order + 1)
     ≫= λ i, [join " " (py_slice words i (i + ngram_order))])
  = (λ i, join " " (window (Z.to_nat ngram_order) i words))
      <$> seq 0 (length words + 1 - Z.to_nat ngram_order).
Proof.
  intros Hn. rewrite bind_yield. unfold py_range, seqZ.
  rewrite <- list_fmap_compose.
  replace (Z.to_nat (Z.of_nat (length words) - ngram_order + 1 - 0))
    with (length words + 1 - Z.to_nat ngram_order)%nat by lia.
  apply list_fmap_ext. intros k i Hk.
  apply lookup_seq in Hk as [-> Hlt]. simpl.
  replace (Z.of_nat k + 0) with (Z.of_nat k) by lia.
  rewrite <- (Z2Nat.id ngram_order) at 1 by lia.
  rewrite py_slice_window by lia. done.
Qed.

Lemma stream_ngrams_lines (lines : list string) (ngram_order : Z)
    (tokenize : string → list string) :
  0 ≤ ngram_order →
  stream_ngrams float lines ngram_order tokenize
  = concat ((λ line, line_ngrams (is_number float) (Z.to_nat ngram_order)
                       (tokenize line)) <$> lines).
Proof.
  intros Hn. unfold stream_ngrams.
  induction lines as [|line lines IH]; [done|].
  rewrite bind_cons, IH, fmap_cons. simpl concat. f_equal.
  rewrite line_loop by done. by rewrite replace_numbers_normalize.
Qed.

Lemma is_number_float (t : string) :
  is_number float t = parses_as_float float t.
Proof.
  unfold is_number, parses_as_float. destruct (float t) as [x|].
  - symmetry. apply bool_decide_eq_true. by exists x.
  - symmetry. apply bool_decide_eq_false. by intros [x Hx].
Qed.

Lemma replace_numbers_float (t : string) :
  replace_numbers float t
  = match float t with
    | Some _ => "*NUM*"
    | None => t
    end.
Proof. unfold replace_numbers, is_number. by destruct (float t). Qed.

Lemma normalize_numbers_float (tokens : list string) :
  normalize_numbers (is_number float) tokens
  = normalize_numbers (parses_as_float float) tokens.
Proof.
  unfold normalize_numbers. apply list_fmap_ext. intros i t _.
  by rewrite is_number_float.
Qed.

Lemma line_ngrams_float (n : nat) (tokens : list string) :
  line_ngrams (is_number float) n tokens
  = line_ngrams (parses_as_float float) n tokens.
Proof. unfold line_ngrams. by rewrite normalize_numbers_float. Qed.

Lemma normalize_numbers_lookup (tokens : list string) (i : nat) (t : string) :
  tokens !! i = Some t →
  normalize_numbers (parses_as_float float) tokens !! i
  = Some (match float t with
          | Some _ => "*NUM*"
          | None => t
          end).
Proof.
  intros Hi. unfold normalize_numbers. rewrite list_lookup_fmap, Hi. simpl.
  by rewrite <- is_number_float, <- replace_numbers_float.
Qed.

End stream_ngrams_facts.

(** C9: every token for which [float] gives a value becomes the token
    "*NUM*" and every token for which it raises stays as it is; for an
    order [n] (not negative) a line of [w] tokens yields, from left to
    right, its [w - n + 1] windows of [n] consecutive tokens, each
    joined by single spaces, and nothing when [w < n]; the lines are
    treated one after the other. *)
Theorem stream_ngrams_windows {F : Type} (float : string → option F)
    (lines : list string) (ngram_order : Z) (tokenize : string → list string) :
  0 ≤ ngram_order →
  stream_ngrams float lines ngram_order tokenize
  = concat ((λ line, line_ngrams (parses_as_float float) (Z.to_nat ngram_order)
                       (tokenize line)) <$> lines)
  ∧ ∀ tokens : list string,
      (∀ i t, tokens !! i = Some t →
         (∀ x, float t = Some x →
            normalize_numbers (parses_as_float float) tokens !! i = Some "*NUM*")
         ∧ (float t = None →
            normalize_numbers (parses_as_float float) tokens !! i = Some t))
      ∧ length (line_ngrams (parses_as_float float) (Z.to_nat ngram_order) tokens)
        = Z.to_nat (Z.of_nat (length tokens) - ngram_order + 1)
      ∧ (Z.of_nat (length tokens) < ngram_order →
         line_ngrams (parses_as_float float) (Z.to_nat ngram_order) tokens = [])
      ∧ ∀ i, Z.of_nat i < Z.of_nat (length tokens) - ngram_order + 1 →
          line_ngrams (parses_as_float float) (Z.to_nat ngram_order) tokens !! i
          = Some (join " " (window (Z.to_nat ngram_order) i
                              (normalize_numbers (parses_as_float float) tokens)))
          ∧ length (window (Z.to_nat ngram_order) i
                      (normalize_numbers (parses_as_float float) tokens))
            = Z.to_nat ngram_order.
Proof.
  intros Hn. split.
  { rewrite stream_ngrams_lines by done. f_equal.
    apply list_fmap_ext. intros k line _. apply line_ngrams_float. }
  intros tokens.
  assert (length (line_ngrams (parses_as_float float) (Z.to_nat ngram_order) tokens)
          = Z.to_nat (Z.of_nat (length tokens) - ngram_order + 1)) as Hlen.
  { unfold line_ngrams.
    rewrite length_fmap, length_seq, length_normalize_numbers. lia. }
  split_and!.
  - intros i t Hi. rewrite (normalize_numbers_lookup float tokens i t Hi).
    split; [intros x Hx | intros Hx]; by rewrite Hx.
  - exact Hlen.
  - intros Hshort. apply nil_length_inv. rewrite Hlen. lia.
  - intros i Hi. split.
    + unfold line_ngrams. rewrite list_lookup_fmap.
      rewrite lookup_seq_lt by (rewrite length_normalize_numbers; lia).
      done.
    + apply length_window. rewrite length_normalize_numbers. lia.
Qed.

Lemma stream_ngrams_windows_witness :
  stream_ngrams float_of_digits ["the 12 cats ate"; "3 mice"; "x"] 2 str_split
  = concat ((λ line, line_ngrams (parses_as_float float_of_digits) 2 (str_split line))
              <$> ["the 12 cats ate"; "3 mice"; "x"]).
Proof.
  apply (stream_ngrams_windows float_of_digits
           ["the 12 cats ate"; "3 mice"; "x"] 2 str_split).
  lia.
Defined.

(** * Further properties *)

(** ** More on strings *)

Lemma append_assoc (a b c : string) : (a +:+ b) +:+ c = a +:+ (b +:+ c).
Proof.
  induction a as [|x a IH]; [done|]. by rewrite !append_cons, IH.
Qed.

Lemma append_inj_l (a b c : string) : a +:+ b = a +:+ c → b = c.
Proof.
  induction a as [|x a IH]; [done|].
  rewrite !append_cons. intros [= H]. by apply IH.
Qed.

Lemma append_inj_r (a b c : string) : a +:+ c = b +:+ c → a = b.
Proof.
  revert b. induction a as [|x a IH]; intros [|y b] H; [done| | |].
  - apply (f_equal String.length) in H.
    rewrite !length_append in H. simpl in H. lia.
  - apply (f_equal String.length) in H.
    rewrite !length_append in H. simpl in H. lia.
  - rewrite !append_cons in H. injection H as -> H. f_equal. by apply IH.
Qed.

(** ** More on the key tuple and the lookup *)

Lemma property_tuple_Ok_Forall2 (p : gmap string string) (names vs : list string) :
  property_tuple p names = Ok vs → Forall2 (λ n v, p !! n = Some v) names vs.
Proof.
  revert vs. induction names as [|n ns IH]; intros vs Hok.
  - injection Hok as <-. constructor.
  - rewrite property_tuple_cons in Hok.
    destruct (p !! n) as [v|] eqn:Hn; [|done].
    destruct (property_tuple p ns) as [vs'|] eqn:Hns; [|done].
    injection Hok as <-. constructor; [done | by apply IH].
Qed.

Lemma affix_outcome_Ok_inv (names : list string) (table : gmap (list string) string)
    (f : string → string) (p : gmap string string) (r : string) :
  affix_outcome names table f p = Ok r →
  ∃ vs a, property_tuple p names = Ok vs ∧ table !! vs = Some a ∧ r = f a.
Proof.
  unfold affix_outcome. intros H.
  destruct (property_tuple p names) as [vs|] eqn:Hvs; [|done].
  destruct (table !! vs) as [a|] eqn:Ha; [|done].
  injection H as <-. by exists vs, a.
Qed.

Lemma affix_outcome_Raise_any (names : list string) (table : gmap (list string) string)
    (f g : string → string) (p : gmap string string) (e : exn) :
  affix_outcome names table f p = Raise e → affix_outcome names table g p = Raise e.
Proof.
  unfold affix_outcome.
  destruct (property_tuple p names) as [vs|]; [|done].
  by destruct (table !! vs).
Qed.

Lemma affix_morph_attach (self : affix_morpher) (w : string) (p : gmap string string) :
  affix_morph self w p
  = affix_outcome (affix_names self) (affix_table self) (attach self w) p.
Proof. rewrite affix_morph_outcome. by destruct self. Qed.

Lemma attach_inj (self : affix_morpher) (w1 w2 a : string) :
  attach self w1 a = attach self w2 a → w1 = w2.
Proof.
  destruct self; simpl; [apply append_inj_r | apply append_inj_l].
Qed.

Lemma suffix_morph_outcome (o : SuffixMorpher.t) (w : string) (p : gmap string string) :
  SuffixMorpher.morph o w p
  = affix_outcome (SuffixMorpher.property_names o) (SuffixMorpher.suffix_map o)
      (λ a, w +:+ a) p.
Proof. unfold SuffixMorpher.morph. by rewrite suffix_morph_st. Qed.

Lemma prefix_morph_outcome (o : PrefixMorpher.t) (w : string) (p : gmap string string) :
  PrefixMorpher.morph o w p
  = affix_outcome (PrefixMorpher.property_names o) (PrefixMorpher.prefix_map o)
      (λ a, a +:+ w) p.
Proof. unfold PrefixMorpher.morph. by rewrite prefix_morph_st. Qed.

Lemma property_tuple_first_missing (p : gmap string string)
    (pre post : list string) (n : string) :
  (∀ m, m ∈ pre → is_Some (p !! m)) →
  p !! n = None →
  property_tuple p (pre ++ n :: post) = Raise (KeyError (KStr n)).
Proof.
  intros Hpre Hn.
  induction pre as [|m pre IH]; simpl app; rewrite property_tuple_cons.
  - by rewrite Hn.
  - destruct (Hpre m) as [v ->]; [apply list_elem_of_here|].
    rewrite IH; [done|]. intros k Hk. by apply Hpre, list_elem_of_further.
Qed.

(** ** Affix morphers: failures and successes *)

(** X1: when names are absent, the [KeyError] carries the first absent
    name in the order of [property_names], whatever the rule table holds
    and whatever the later names are. *)
Theorem affix_morph_first_missing_name (self : affix_morpher) (w : string)
    (p : gmap string string) (pre post : list string) (n : string) :
  affix_names self = pre ++ n :: post →
  (∀ m, m ∈ pre → is_Some (p !! m)) →
  p !! n = None →
  affix_morph self w p = Raise (KeyError (KStr n)).
Proof.
  intros Hnames Hpre Hn. rewrite affix_morph_attach. unfold affix_outcome.
  by rewrite Hnames, property_tuple_first_missing.
Qed.

Lemma affix_morph_first_missing_name_witness :
  affix_morph (PrefixMode (EnglishVerbMorpher.negation_morpher EnglishVerbMorpher.init))
    "walk" {[ "PERSON" := "3" ]}
  = Raise (KeyError (KStr "COUNT")).
Proof.
  apply (affix_morph_first_missing_name _ _ _ ["PERSON"] ["TENSE"; "POLARITY"]).
  - reflexivity.
  - intros m Hm. apply list_elem_of_singleton in Hm. subst m.
    vm_compute. eauto.
  - reflexivity.
Defined.

(** X2: an affix morpher returns a word exactly when every property
    name has a value, the tuple of these values in the order of the names
    is a key of the rule table, and the word is the stem with the affix
    of that key attached. *)
Theorem affix_morph_succeeds_iff (self : affix_morpher) (w r : string)
    (p : gmap string string) :
  affix_morph self w p = Ok r
  ↔ ∃ vs a,
      Forall2 (λ n v, p !! n = Some v) (affix_names self) vs
      ∧ affix_table self !! vs = Some a
      ∧ r = attach self w a.
Proof.
  rewrite affix_morph_attach. split.
  - intros (vs & a & Hvs & Ha & ->)%affix_outcome_Ok_inv.
    exists vs, a. split_and!; try done. by apply property_tuple_Ok_Forall2.
  - intros (vs & a & Hvs & Ha & ->). by apply (affix_outcome_known _ _ _ _ vs).
Qed.

Lemma affix_morph_failure_any_stem (self : affix_morpher) (w1 w2 : string)
    (p : gmap string string) (e : exn) :
  affix_morph self w1 p = Raise e → affix_morph self w2 p = Raise e.
Proof. rewrite !affix_morph_attach. apply affix_outcome_Raise_any. Qed.

Lemma affix_morph_inj (self : affix_morpher) (w1 w2 r : string)
    (p : gmap string string) :
  affix_morph self w1 p = Ok r → affix_morph self w2 p = Ok r → w1 = w2.
Proof.
  rewrite !affix_morph_attach.
  intros (vs1 & a1 & Hvs1 & Ha1 & ->)%affix_outcome_Ok_inv.
  intros (vs2 & a2 & Hvs2 & Ha2 & Heq)%affix_outcome_Ok_inv.
  rewrite Hvs1 in Hvs2. injection Hvs2 as <-.
  rewrite Ha1 in Ha2. injection Ha2 as <-.
  by apply (attach_inj self w1 w2 a1).
Qed.

Lemma english_verb_morph_Ok_inv (self : EnglishVerbMorpher.t) (w r : string)
    (p : gmap string string) :
  EnglishVerbMorpher.morph self w p = Ok r →
  ∃ x, SuffixMorpher.morph (EnglishVerbMorpher.base_morpher self) w p = Ok x
       ∧ PrefixMorpher.morph (EnglishVerbMorpher.negation_morpher self) x p = Ok r.
Proof.
  rewrite english_verb_morph_steps.
  destruct (SuffixMorpher.morph _ w p) as [x|]; [|done]. by exists x.
Qed.

Lemma english_verb_morph_Raise_inv (self : EnglishVerbMorpher.t) (w : string)
    (p : gmap string string) (e : exn) :
  EnglishVerbMorpher.morph self w p = Raise e →
  SuffixMorpher.morph (EnglishVerbMorpher.base_morpher self) w p = Raise e
  ∨ ∃ x, SuffixMorpher.morph (EnglishVerbMorpher.base_morpher self) w p = Ok x
         ∧ PrefixMorpher.morph (EnglishVerbMorpher.negation_morpher self) x p
           = Raise e.
Proof.
  rewrite english_verb_morph_steps.
  destruct (SuffixMorpher.morph _ w p) as [x|]; [|by left]. right. by exists x.
Qed.

Lemma english_verb_morph_inj (self : EnglishVerbMorpher.t) (w1 w2 r : string)
    (p : gmap string string) :
  EnglishVerbMorpher.morph self w1 p = Ok r →
  EnglishVerbMorpher.morph self w2 p = Ok r → w1 = w2.
Proof.
  intros (x1 & Hs1 & Hp1)%english_verb_morph_Ok_inv.
  intros (x2 & Hs2 & Hp2)%english_verb_morph_Ok_inv.
  pose proof (affix_morph_inj (PrefixMode _) _ _ _ _ Hp1 Hp2) as <-.
  exact (affix_morph_inj (SuffixMode _) _ _ _ _ Hs1 Hs2).
Qed.

Lemma english_verb_morph_failure_any_stem (self : EnglishVerbMorpher.t)
    (w1 w2 : string) (p : gmap string string) (e : exn) :
  EnglishVerbMorpher.morph self w1 p = Raise e →
  EnglishVerbMorpher.morph self w2 p = Raise e.
Proof.
  intros [Hs | (x & Hs & Hp)]%english_verb_morph_Raise_inv;
    rewrite english_verb_morph_steps.
  - pose proof (affix_morph_failure_any_stem (SuffixMode _) w1 w2 p e Hs) as H.
    simpl in H. by rewrite H.
  - destruct (SuffixMorpher.morph (EnglishVerbMorpher.base_morpher self) w2 p)
      as [x2|e2] eqn:Hs2.
    + exact (affix_morph_failure_any_stem (PrefixMode _) x x2 p e Hp).
    + pose proof (affix_morph_failure_any_stem (SuffixMode _) w2 w1 p e2 Hs2) as H.
      simpl in H. rewrite Hs in H. done.
Qed.

Lemma fmap_PyStr_Ok_inv (x : result string) (r : string) :
  PyStr <$> x = Ok (PyStr r) → x = Ok r.
Proof. destruct x; [|done]. by intros [= ->]. Qed.

Lemma fmap_PyStr_Raise_inv (x : result string) (e : exn) :
  PyStr <$> x = Raise e → x = Raise e.
Proof. destruct x; [done|]. by intros [= ->]. Qed.

Lemma morph_class (self : morpher) (w : string) (p : gmap string string) :
  morph self w p
  = match self with
    | OMorpher o => Morpher.morph o w p
    | OSuffix o => PyStr <$> SuffixMorpher.morph o w p
    | OPrefix o => PyStr <$> PrefixMorpher.morph o w p
    | OEnglishVerb o => PyStr <$> EnglishVerbMorpher.morph o w p
    | OEnglishNoun o =>
        PyStr <$> SuffixMorpher.morph (EnglishNounMorpher.base_morpher o) w p
    | OJapaneseVerb o =>
        PyStr <$> SuffixMorpher.morph (JapaneseVerbMorpher.base_morpher o) w p
    end.
Proof.
  unfold morph, morph_st, dispatch. destruct self as [o|o|o|o|o|o]; try done.
  - by rewrite english_noun_morph_st.
  - by rewrite japanese_verb_morph_st.
Qed.

(** X3: for a morpher of any class, whether a call fails, and with which
    exception, does not depend on the stem. *)
Theorem morph_failure_ignores_stem (self : morpher) (w1 w2 : string)
    (p : gmap string string) (e : exn) :
  morph self w1 p = Raise e → morph self w2 p = Raise e.
Proof.
  rewrite !morph_class. destruct self as [o|o|o|o|o|o]; try done;
    intros H%fmap_PyStr_Raise_inv.
  - pose proof (affix_morph_failure_any_stem (SuffixMode o) w1 w2 p e H) as H'.
    simpl in H'. by rewrite H'.
  - pose proof (affix_morph_failure_any_stem (PrefixMode o) w1 w2 p e H) as H'.
    simpl in H'. by rewrite H'.
  - by rewrite (english_verb_morph_failure_any_stem o w1 w2 p e H).
  - pose proof (affix_morph_failure_any_stem (SuffixMode _) w1 w2 p e H) as H'.
    simpl in H'. by rewrite H'.
  - pose proof (affix_morph_failure_any_stem (SuffixMode _) w1 w2 p e H) as H'.
    simpl in H'. by rewrite H'.
Qed.

Lemma morph_failure_ignores_stem_witness :
  morph (OEnglishVerb EnglishVerbMorpher.init) "talk" (bundle "2" "sng" "present" "pos")
  = Raise (KeyError (KTuple ["2"; "sng"; "present"; "pos"])).
Proof.
  apply (morph_failure_ignores_stem (OEnglishVerb EnglishVerbMorpher.init)
           "walk" "talk").
  reflexivity.
Defined.

(** X4: under one bundle, a suffix, prefix or catalog morpher never
    sends two different stems to the same word. *)
Theorem morph_injective_in_stem (self : morpher) (w1 w2 r : string)
    (p : gmap string string) :
  morph self w1 p = Ok (PyStr r) → morph self w2 p = Ok (PyStr r) → w1 = w2.
Proof.
  rewrite !morph_class. destruct self as [o|o|o|o|o|o]; try done;
    intros H1%fmap_PyStr_Ok_inv H2%fmap_PyStr_Ok_inv.
  - exact (affix_morph_inj (SuffixMode o) _ _ _ _ H1 H2).
  - exact (affix_morph_inj (PrefixMode o) _ _ _ _ H1 H2).
  - exact (english_verb_morph_inj o _ _ _ _ H1 H2).
  - exact (affix_morph_inj (SuffixMode _) _ _ _ _ H1 H2).
  - exact (affix_morph_inj (SuffixMode _) _ _ _ _ H1 H2).
Qed.

Lemma morph_injective_in_stem_witness : "walk" = "walk".
Proof.
  apply (morph_injective_in_stem (OEnglishVerb EnglishVerbMorpher.init)
           "walk" "walk" "does not walk" (bundle "3" "sng" "present" "neg"));
    reflexivity.
Defined.

(** X5: a suffix morpher leaves alone whatever stands in front of the
    stem, and a prefix morpher whatever stands behind it: extending the
    stem there extends the outcome in the same way, failures included. *)
Theorem affix_morph_stem_concat (w u : string) (p : gmap string string) :
  (∀ o : SuffixMorpher.t,
     SuffixMorpher.morph o (u +:+ w) p = (λ r, u +:+ r) <$> SuffixMorpher.morph o w p)
  ∧ (∀ o : PrefixMorpher.t,
       PrefixMorpher.morph o (w +:+ u) p = (λ r, r +:+ u) <$> PrefixMorpher.morph o w p).
Proof.
  split; intros o.
  - rewrite !suffix_morph_outcome. unfold affix_outcome.
    destruct (property_tuple p _) as [vs|]; [|done].
    destruct (_ !! vs); [|done]. simpl. by rewrite append_assoc.
  - rewrite !prefix_morph_outcome. unfold affix_outcome.
    destruct (property_tuple p _) as [vs|]; [|done].
    destruct (_ !! vs); [|done]. simpl. by rewrite append_assoc.
Qed.

(** X6: a suffix step and a prefix step give the same word in either
    order: running the prefix morpher on the suffixed stem returns [r]
    exactly when running the suffix morpher on the prefixed stem does. *)
Theorem suffix_prefix_steps_commute (s : SuffixMorpher.t) (q : PrefixMorpher.t)
    (w r : string) (p : gmap string string) :
  (x ← SuffixMorpher.morph s w p; PrefixMorpher.morph q x p) = Ok r
  ↔ (x ← PrefixMorpher.morph q w p; SuffixMorpher.morph s x p) = Ok r.
Proof.
  rewrite (suffix_morph_outcome s w), (prefix_morph_outcome q w).
  unfold affix_outcome.
  destruct (property_tuple p (SuffixMorpher.property_names s)) as [vs|e1] eqn:Hs;
    destruct (property_tuple p (PrefixMorpher.property_names q)) as [vq|e2] eqn:Hq;
    try destruct (SuffixMorpher.suffix_map s !! vs) as [a|] eqn:Ha;
    try destruct (PrefixMorpher.prefix_map q !! vq) as [b|] eqn:Hb;
    simpl;
    rewrite ?prefix_morph_outcome, ?suffix_morph_outcome; unfold affix_outcome;
    rewrite ?Hs, ?Hq, ?Ha, ?Hb; try done.
  by rewrite append_assoc.
Qed.

(** ** The catalog: rules and domains *)

Lemma foldl_insert_lookup_Some {V} (l : list (list string * V))
    (d : gmap (list string) V) (k : list string) (v : V) :
  foldl (λ d kv, <[kv.1 := kv.2]> d) d l !! k = Some v →
  (k, v) ∈ l ∨ d !! k = Some v.
Proof.
  revert d. induction l as [|[k0 v0] l IH]; intros d H; simpl in H; [by right|].
  apply IH in H as [H|H]; [left; by apply list_elem_of_further|].
  destruct (decide (k0 = k)) as [->|Hne].
  - rewrite lookup_insert_eq in H. injection H as ->. left. apply list_elem_of_here.
  - rewrite lookup_insert_ne in H by done. by right.
Qed.

(** A key found in a dictionary display is one of the keys written in it. *)
Lemma dict_literal_lookup_Some {V} (l : list (list string * V))
    (k : list string) (v : V) :
  dict_literal l !! k = Some v → (k, v) ∈ l.
Proof.
  unfold dict_literal. intros [H|H]%foldl_insert_lookup_Some; [done|].
  by rewrite lookup_empty in H.
Qed.

Lemma english_verb_suffix_keys (k : list string) (a : string) :
  SuffixMorpher.suffix_map (EnglishVerbMorpher.base_morpher EnglishVerbMorpher.init)
    !! k = Some a →
  ∃ person count tense polarity,
    k = [person; count; tense; polarity]
    ∧ person ∈ persons ∧ count ∈ counts ∧ tense ∈ tenses ∧ polarity ∈ polarities.
Proof.
  intros H%dict_literal_lookup_Some. unfold persons, counts, tenses, polarities.
  each_entry H; do 4 eexists; (split; [reflexivity|]); split_and!; in_literal.
Qed.

Lemma english_noun_keys (k : list string) (a : string) :
  SuffixMorpher.suffix_map (EnglishNounMorpher.base_morpher EnglishNounMorpher.init)
    !! k = Some a →
  ∃ count, k = [count] ∧ count ∈ counts.
Proof.
  intros H%dict_literal_lookup_Some. unfold counts.
  each_entry H; eexists; (split; [reflexivity|]); in_literal.
Qed.

Lemma japanese_verb_keys (k : list string) (a : string) :
  SuffixMorpher.suffix_map (JapaneseVerbMorpher.base_morpher JapaneseVerbMorpher.init)
    !! k = Some a →
  ∃ person count tense,
    k = [person; count; tense]
    ∧ person ∈ persons ∧ count ∈ counts ∧ tense ∈ tenses.
Proof.
  intros H%dict_literal_lookup_Some. unfold persons, counts, tenses.
  each_entry H; do 3 eexists; (split; [reflexivity|]); split_and!; in_literal.
Qed.

Lemma affix_outcome_unknown (names : list string) (table : gmap (list string) string)
    (f : string → string) (p : gmap string string) (vs : list string) :
  Forall2 (λ n v, p !! n = Some v) names vs →
  table !! vs = None →
  affix_outcome names table f p = Raise (KeyError (KTuple vs)).
Proof.
  intros Hvs Hnone. unfold affix_outcome.
  by rewrite (property_tuple_Forall2 _ _ _ Hvs), Hnone.
Qed.

(** X7: on its domain the English verb morpher follows the rules of the
    grammar. The suffix is empty under negation, "d" in the perfect, "s"
    in the third person singular present, and empty otherwise; the word
    is preceded by nothing when positive, by "did not " in the negated
    perfect, by "does not " in the negated third person singular
    present, and by "do not " in the other negated forms. *)
Theorem english_verb_rules (w : string) (p : gmap string string)
    (person count tense polarity : string) :
  person ∈ persons → count ∈ counts → tense ∈ tenses → polarity ∈ polarities →
  p !! "PERSON" = Some person → p !! "COUNT" = Some count →
  p !! "TENSE" = Some tense → p !! "POLARITY" = Some polarity →
  EnglishVerbMorpher.morph EnglishVerbMorpher.init w p
  = Ok (english_verb_negation person count tense polarity
        +:+ w +:+ english_verb_suffix person count tense polarity).
Proof.
  unfold persons, counts, tenses, polarities.
  intros Hp Hc Ht Hpol Hperson Hcount Htense Hpolarity.
  assert (Forall2 (λ n v, p !! n = Some v)
            ["PERSON"; "COUNT"; "TENSE"; "POLARITY"] [person; count; tense; polarity])
    as Hvs by (by repeat constructor).
  rewrite english_verb_morph_steps, suffix_morph_outcome.
  cases_of_elem;
    (erewrite affix_outcome_known; [| exact Hvs | vm_compute; reflexivity]);
    rewrite prefix_morph_outcome;
    (erewrite affix_outcome_known; [| exact Hvs | vm_compute; reflexivity]);
    reflexivity.
Qed.

Lemma english_verb_rules_witness :
  EnglishVerbMorpher.morph EnglishVerbMorpher.init "bake"
    (bundle "3" "plu" "perfect" "pos")
  = Ok "baked".
Proof.
  etrans;
    [apply (english_verb_rules "bake" (bundle "3" "plu" "perfect" "pos")
              "3" "plu" "perfect" "pos"); first [reflexivity | in_literal]
    | reflexivity].
Defined.

(** X8: the English verb morpher accepts nothing beyond its sixteen
    combinations. With the four properties present and some value
    outside PERSON 1, 3, COUNT sng, plu, TENSE present, perfect,
    POLARITY pos, neg, the call raises [KeyError] with the tuple of the
    four values. *)
Theorem english_verb_rejects_other_values (w : string) (p : gmap string string)
    (person count tense polarity : string) :
  p !! "PERSON" = Some person → p !! "COUNT" = Some count →
  p !! "TENSE" = Some tense → p !! "POLARITY" = Some polarity →
  ¬ (person ∈ persons ∧ count ∈ counts ∧ tense ∈ tenses ∧ polarity ∈ polarities) →
  EnglishVerbMorpher.morph EnglishVerbMorpher.init w p
  = Raise (KeyError (KTuple [person; count; tense; polarity])).
Proof.
  intros Hperson Hcount Htense Hpolarity Hout.
  rewrite english_verb_morph_steps, suffix_morph_outcome.
  rewrite (affix_outcome_unknown _ _ _ _ [person; count; tense; polarity]);
    [done | by repeat constructor |].
  destruct (SuffixMorpher.suffix_map _ !! _) as [a|] eqn:Ha; [|done].
  apply english_verb_suffix_keys in Ha as (a1 & a2 & a3 & a4 & [= -> -> -> ->] & Hin).
  by destruct Hout.
Qed.

Lemma english_verb_rejects_other_values_witness :
  EnglishVerbMorpher.morph EnglishVerbMorpher.init "walk"
    (bundle "2" "sng" "present" "pos")
  = Raise (KeyError (KTuple ["2"; "sng"; "present"; "pos"])).
Proof.
  apply (english_verb_rejects_other_values "walk" (bundle "2" "sng" "present" "pos"));
    try reflexivity.
  intros (H & _). unfold persons in H.
  apply elem_of_cons in H as [H|H]; [discriminate H|].
  apply list_elem_of_singleton in H. discriminate H.
Defined.

(** X9: the English noun morpher raises [KeyError] with the one-value
    tuple for a COUNT other than sng and plu, and the Japanese verb
    morpher with the three-value tuple when PERSON, COUNT or TENSE is
    outside 1, 3, sng, plu, present, perfect. *)
Theorem noun_and_japanese_verb_reject_other_values (w : string)
    (p : gmap string string) :
  (∀ count,
     p !! "COUNT" = Some count → count ∉ counts →
     EnglishNounMorpher.morph EnglishNounMorpher.init w p
     = Raise (KeyError (KTuple [count])))
  ∧ (∀ person count tense,
       p !! "PERSON" = Some person → p !! "COUNT" = Some count →
       p !! "TENSE" = Some tense →
       ¬ (person ∈ persons ∧ count ∈ counts ∧ tense ∈ tenses) →
       JapaneseVerbMorpher.morph JapaneseVerbMorpher.init w p
       = Raise (KeyError (KTuple [person; count; tense]))).
Proof.
  split.
  - intros count Hcount Hout. unfold EnglishNounMorpher.morph.
    rewrite english_noun_morph_st. simpl fst. rewrite suffix_morph_outcome.
    apply affix_outcome_unknown; [by repeat constructor|].
    destruct (SuffixMorpher.suffix_map _ !! _) as [a|] eqn:Ha; [|done].
    by apply english_noun_keys in Ha as (c & [= ->] & Hin).
  - intros person count tense Hperson Hcount Htense Hout.
    unfold JapaneseVerbMorpher.morph.
    rewrite japanese_verb_morph_st. simpl fst. rewrite suffix_morph_outcome.
    apply affix_outcome_unknown; [by repeat constructor|].
    destruct (SuffixMorpher.suffix_map _ !! _) as [a|] eqn:Ha; [|done].
    apply japanese_verb_keys in Ha as (a1 & a2 & a3 & [= -> -> ->] & Hin).
    by destruct Hout.
Qed.

Lemma noun_and_japanese_verb_reject_other_values_witness :
  EnglishNounMorpher.morph EnglishNounMorpher.init "cat" {[ "COUNT" := "dual" ]}
  = Raise (KeyError (KTuple ["dual"])).
Proof.
  apply (noun_and_japanese_verb_reject_other_values "cat" {[ "COUNT" := "dual" ]}).
  - reflexivity.
  - unfold counts. intros H.
    apply elem_of_cons in H as [H|H]; [discriminate H|].
    apply list_elem_of_singleton in H. discriminate H.
Defined.

(** X10: whatever tables an English verb morpher holds, the word it
    returns is the stem with an affix of the prefix table in front and an
    affix of the suffix table behind; the stem itself is never altered. *)
Theorem english_verb_keeps_stem (self : EnglishVerbMorpher.t) (w r : string)
    (p : gmap string string) :
  EnglishVerbMorpher.morph self w p = Ok r →
  ∃ ks a kp b,
    SuffixMorpher.suffix_map (EnglishVerbMorpher.base_morpher self) !! ks = Some a
    ∧ PrefixMorpher.prefix_map (EnglishVerbMorpher.negation_morpher self) !! kp = Some b
    ∧ r = b +:+ w +:+ a
    ∧ String.length r = (String.length b + String.length w + String.length a)%nat.
Proof.
  intros (x & Hs & Hp)%english_verb_morph_Ok_inv.
  rewrite suffix_morph_outcome in Hs. rewrite prefix_morph_outcome in Hp.
  apply affix_outcome_Ok_inv in Hs as (ks & a & _ & Ha & ->).
  apply affix_outcome_Ok_inv in Hp as (kp & b & _ & Hb & ->).
  exists ks, a, kp, b. split_and!; try done.
  rewrite !length_append. lia.
Qed.

Lemma english_verb_keeps_stem_witness :
  ∃ ks a kp b,
    SuffixMorpher.suffix_map (EnglishVerbMorpher.base_morpher EnglishVerbMorpher.init)
      !! ks = Some a
    ∧ PrefixMorpher.prefix_map
        (EnglishVerbMorpher.negation_morpher EnglishVerbMorpher.init) !! kp = Some b
    ∧ "walks" = b +:+ "walk" +:+ a
    ∧ String.length "walks"
      = (String.length b + String.length "walk" + String.length a)%nat.
Proof.
  apply (english_verb_keeps_stem EnglishVerbMorpher.init "walk" "walks"
           (bundle "3" "sng" "present" "pos")).
  reflexivity.
Defined.

(** ** The n-gram stream: lines, counts, orders *)

Lemma line_yields_length {A} (words : list A) (n : Z) (g : Z → string) :
  length (py_range 0 (Z.of_nat (length words) - n + 1) ≫= λ i, [g i])
  = Z.to_nat (Z.of_nat (length words) - n + 1).
Proof.
  rewrite bind_yield, length_fmap. unfold py_range. rewrite length_seqZ. lia.
Qed.

Lemma py_slice_empty {A} (l : list A) (i j : Z) :
  slice_index (Z.of_nat (length l)) j ≤ slice_index (Z.of_nat (length l)) i →
  py_slice l i j = [].
Proof.
  intros H. unfold py_slice.
  replace (Z.to_nat _) with 0%nat by lia. apply take_0.
Qed.

Lemma fmap_all_same {A B} (f : A → B) (c : B) (l : list A) :
  (∀ x, x ∈ l → f x = c) → f <$> l = replicate (length l) c.
Proof.
  induction l as [|x l IH]; intros H; [done|]. simpl.
  rewrite H by apply list_elem_of_here. f_equal.
  apply IH. intros y Hy. by apply H, list_elem_of_further.
Qed.

Lemma unigram_windows (l : list string) :
  (λ i, join " " (window 1 i l)) <$> seq 0 (length l + 1 - 1) = l.
Proof.
  replace (length l + 1 - 1)%nat with (length l) by lia.
  apply list_eq. intros i. rewrite list_lookup_fmap.
  destruct (l !! i) as [x|] eqn:Hx.
  - rewrite lookup_seq_lt by (by eapply lookup_lt_Some). simpl.
    unfold window. by rewrite (drop_S _ _ _ Hx).
  - rewrite lookup_seq_ge; [done|]. by apply lookup_ge_None.
Qed.

(** X11: the generator treats the lines one by one and no n-gram spans
    two lines: the stream of two texts put end to end is the stream of
    the first followed by the stream of the second, for any order; an
    empty text gives an empty stream. *)
Theorem stream_ngrams_app {F : Type} (float : string → option F)
    (lines1 lines2 : list string) (ngram_order : Z)
    (tokenize : string → list string) :
  stream_ngrams float (lines1 ++ lines2) ngram_order tokenize
  = stream_ngrams float lines1 ngram_order tokenize
    ++ stream_ngrams float lines2 ngram_order tokenize
  ∧ stream_ngrams float [] ngram_order tokenize = [].
Proof. split; [apply bind_app | done]. Qed.

Lemma stream_order_one {F : Type} (float : string → option F)
    (lines : list string) (tokenize : string → list string) :
  stream_ngrams float lines 1 tokenize
  = lines ≫= λ line, replace_numbers float <$> tokenize line.
Proof.
  rewrite stream_ngrams_lines by lia.
  induction lines as [|line lines IH]; [done|].
  rewrite fmap_cons, bind_cons. simpl concat. rewrite IH. f_equal.
  unfold line_ngrams. change (Z.to_nat 1) with 1%nat.
  by rewrite unigram_windows.
Qed.

(** X12: with order 1 the stream is the sequence of the tokens of all
    lines, where a token for which [float] gives a value is replaced by
    "*NUM*" and a token for which it raises is left as it is. *)
Theorem stream_unigrams {F : Type} (float : string → option F)
    (lines : list string) (tokenize : string → list string) :
  stream_ngrams float lines 1 tokenize
  = lines ≫= λ line,
      (λ t, match float t with
            | Some _ => "*NUM*"
            | None => t
            end) <$> tokenize line.
Proof.
  rewrite stream_order_one. apply list_bind_ext; [|done]. intros line.
  apply list_fmap_ext. intros i t _. apply replace_numbers_float.
Qed.

(** X13: for any order [n], negative or not, a line of [w] tokens
    contributes [max 0 (w - n + 1)] values to the stream. *)
Theorem stream_ngrams_count {F : Type} (float : string → option F)
    (lines : list string) (ngram_order : Z) (tokenize : string → list string) :
  length (stream_ngrams float lines ngram_order tokenize)
  = sum_list_with
      (λ line, Z.to_nat (Z.of_nat (length (tokenize line)) - ngram_order + 1))
      lines.
Proof.
  unfold stream_ngrams.
  induction lines as [|line lines IH]; [done|].
  rewrite bind_cons, length_app, IH. simpl. f_equal.
  rewrite line_yields_length. by rewrite length_fmap.
Qed.

(** X14: a negative order [-k] is not refused. On a line of [w] tokens
    the generator then yields [k] windows of [w - k] consecutive tokens
    (empty strings when [w <= k]) and after them [w + 1] empty strings. *)
Theorem stream_ngrams_negative_order {F : Type} (float : string → option F)
    (lines : list string) (ngram_order : Z) (tokenize : string → list string) :
  ngram_order < 0 →
  stream_ngrams float lines ngram_order tokenize
  = lines ≫= λ line,
      let words := replace_numbers float <$> tokenize line in
      ((λ i, join " " (window (Z.to_nat (Z.of_nat (length words) + ngram_order)) i words))
         <$> seq 0 (Z.to_nat (- ngram_order)))
      ++ replicate (length words + 1) "".
Proof.
  intros Hneg. unfold stream_ngrams.
  apply list_bind_ext; [|done]. intros line. simpl.
  set (words := replace_numbers float <$> tokenize line).
  rewrite bind_yield. unfold py_range.
  replace (Z.of_nat (length words) - ngram_order + 1 - 0)
    with (- ngram_order + Z.of_nat (length words + 1)) by lia.
  rewrite seqZ_app by lia. rewrite fmap_app. f_equal.
  - unfold seqZ. rewrite <- list_fmap_compose.
    apply list_fmap_ext. intros k i Hk.
    apply lookup_seq in Hk as [-> Hlt]. simpl.
    unfold py_slice, window, slice_index.
    destruct (Z.ltb_spec (Z.of_nat k + 0) 0) as [|_]; [lia|].
    destruct (Z.ltb_spec (Z.of_nat k + 0 + ngram_order) 0) as [_|]; [|lia].
    destruct (decide (0 < Z.of_nat (length words) + ngram_order)) as [Hpos|Hnpos].
    + f_equal. f_equal; [lia|]. f_equal. lia.
    + replace (Z.to_nat (Z.of_nat (length words) + ngram_order)) with 0%nat by lia.
      rewrite take_0.
      destruct (decide (Z.of_nat k ≤ Z.of_nat (length words))) as [Hk|Hk].
      * replace (Z.to_nat _) with 0%nat by lia. by rewrite take_0.
      * rewrite drop_ge by lia. by rewrite take_nil.
  - rewrite (fmap_all_same _ "").
    + by rewrite length_seqZ, Nat2Z.id.
    + intros i [Hlo Hhi]%elem_of_seqZ.
      rewrite py_slice_empty; [done|].
      unfold slice_index.
      destruct (Z.ltb_spec i 0) as [|_]; [lia|].
      destruct (Z.ltb_spec (i + ngram_order) 0) as [|_]; [lia|]. lia.
Qed.

Lemma stream_ngrams_negative_order_witness :
  stream_ngrams float_of_digits ["a b c d"] (-2) str_split
  = ["a b"; "b c"; ""; ""; ""; ""; ""].
Proof.
  etrans;
    [apply (stream_ngrams_negative_order float_of_digits ["a b c d"] (-2) str_split);
     lia
    | reflexivity].
Defined.

(** X15: provided [float] rejects the sentinel itself, [float] rejects
    every token after replacement, replacing numbers twice is replacing
    them once, and [float] rejects every unigram of the stream. *)
Theorem numbers_do_not_survive {F : Type} (float : string → option F)
    (lines : list string) (tokenize : string → list string) :
  float "*NUM*" = None →
  (∀ t, float (replace_numbers float t) = None
        ∧ replace_numbers float (replace_numbers float t) = replace_numbers float t)
  ∧ ∀ g, g ∈ stream_ngrams float lines 1 tokenize → float g = None.
Proof.
  intros Hsentinel.
  assert (∀ t, float (replace_numbers float t) = None) as Hclean.
  { intros t. rewrite replace_numbers_float.
    by destruct (float t) eqn:Ht. }
  split.
  - intros t. split; [apply Hclean|].
    rewrite (replace_numbers_float float (replace_numbers float t)).
    by rewrite Hclean.
  - intros g. rewrite stream_order_one.
    intros (line & Hg & _)%list_elem_of_bind.
    apply list_elem_of_fmap in Hg as (t & -> & _).
    apply (Hclean t).
Qed.

Lemma numbers_do_not_survive_witness :
  (float_of_digits (replace_numbers float_of_digits "12") = None
   ∧ replace_numbers float_of_digits (replace_numbers float_of_digits "12")
     = replace_numbers float_of_digits "12")
  ∧ float_of_digits "cats" = None.
Proof.
  split.
  - apply (numbers_do_not_survive float_of_digits ["the 12 cats"] str_split).
    reflexivity.
  - apply (proj2 (numbers_do_not_survive float_of_digits ["the 12 cats"] str_split
                    eq_refl)).
    apply list_elem_of_further, list_elem_of_further, list_elem_of_here.
Defined.

(** ** The default tokenizer *)

Lemma no_space_append (a b : string) :
  no_space (a +:+ b) = no_space a && no_space b.
Proof.
  induction a as [|c a IH]; [done|].
  rewrite append_cons. simpl. by rewrite IH, andb_assoc.
Qed.

Lemma flush_nonempty (t : string) : t ≠ EmptyString → flush t = [t].
Proof. by destruct t. Qed.

Lemma append_nonempty_r (a : string) (c : ascii) :
  a +:+ String c EmptyString ≠ EmptyString.
Proof. by destruct a. Qed.

Lemma split_from_word (tok t s : string) :
  no_space t = true → split_from tok (t +:+ s) = split_from (tok +:+ t) s.
Proof.
  revert tok. induction t as [|c t IH]; intros tok Ht.
  - by rewrite append_empty_r.
  - simpl in Ht. apply andb_true_iff in Ht as [Hc Ht].
    rewrite append_cons. simpl. apply negb_true_iff in Hc. rewrite Hc.
    rewrite IH by done. f_equal.
    by rewrite append_assoc.
Qed.

Lemma str_split_join (l : list string) :
  Forall token l → str_split (join " " l) = l.
Proof.
  unfold str_split. induction 1 as [|t l [Hne Ht] Hl IH]; [done|].
  destruct l as [|t' l].
  - simpl. rewrite <- (append_empty_r t) at 1.
    rewrite split_from_word by done. simpl. by apply flush_nonempty.
  - change (join " " (t :: t' :: l)) with (t +:+ " " +:+ join " " (t' :: l)).
    rewrite split_from_word by done.
    change (flush t ++ split_from EmptyString (join " " (t' :: l)) = t :: t' :: l).
    rewrite IH. by rewrite flush_nonempty.
Qed.

Lemma split_from_tokens (tok s : string) :
  no_space tok = true → Forall token (split_from tok s).
Proof.
  revert tok. induction s as [|c s IH]; intros tok Htok; simpl.
  - destruct tok; [constructor|]. by repeat constructor.
  - destruct (isspace c) eqn:Hc.
    + apply Forall_app. split; [|by apply IH].
      destruct tok; [constructor|]. by repeat constructor.
    + apply IH. rewrite no_space_append, Htok. simpl. by rewrite Hc.
Qed.

Lemma str_split_tokens (s : string) : Forall token (str_split s).
Proof. by apply split_from_tokens. Qed.

Lemma replace_numbers_token {F : Type} (float : string → option F) (t : string) :
  token t → token (replace_numbers float t).
Proof.
  intros Ht. unfold replace_numbers. destruct (is_number float t); [|done].
  by split.
Qed.

(** X16: with the default tokenizer an n-gram can be taken apart again:
    splitting the [i]-th n-gram of a line gives back the [n] tokens of
    the [i]-th window, numbers replaced. *)
Theorem ngram_splits_back {F : Type} (float : string → option F)
    (line g : string) (ngram_order : Z) (i : nat) :
  0 ≤ ngram_order →
  stream_ngrams float [line] ngram_order str_split !! i = Some g →
  str_split g
  = window (Z.to_nat ngram_order) i (replace_numbers float <$> str_split line)
  ∧ length (str_split g) = Z.to_nat ngram_order.
Proof.
  intros Hn. rewrite stream_ngrams_lines by done. simpl. rewrite app_nil_r.
  unfold line_ngrams. rewrite <- replace_numbers_normalize.
  set (words := replace_numbers float <$> str_split line).
  rewrite list_lookup_fmap. intros Hg.
  destruct (seq 0 _ !! i) as [k|] eqn:Hk; [|done].
  apply lookup_seq in Hk as [-> Hlt]. simpl in Hg. injection Hg as <-.
  assert (Forall token words) as Hwords.
  { unfold words. apply Forall_fmap. eapply Forall_impl; [apply str_split_tokens|].
    intros t Ht. by apply replace_numbers_token. }
  rewrite str_split_join by (unfold window; by apply Forall_take, Forall_drop).
  split; [done|]. apply length_window. lia.
Qed.

Lemma ngram_splits_back_witness :
  str_split "*NUM* cats"
  = window 2 1 (replace_numbers float_of_digits <$> str_split "the 12 cats ate")
  ∧ length (str_split "*NUM* cats") = 2%nat.
Proof.
  apply (ngram_splits_back float_of_digits "the 12 cats ate" "*NUM* cats" 2 1).
  - lia.
  - reflexivity.
Defined.

(** ** Reading lines *)

Lemma str_lstrip_decomp (s : string) :
  ∃ a, s = a +:+ str_lstrip s ∧ all_space a = true.
Proof.
  induction s as [|c s (a & IH & Ha)]; [by exists EmptyString|]. simpl.
  destruct (isspace c) eqn:Hc.
  - exists (String c a). rewrite append_cons, <- IH. simpl. by rewrite Hc.
  - by exists EmptyString.
Qed.

Lemma str_rstrip_decomp (s : string) :
  ∃ b, s = str_rstrip s +:+ b ∧ all_space b = true.
Proof.
  induction s as [|c s (b & IH & Hb)]; [by exists EmptyString|]. simpl.
  destruct (str_rstrip s) as [|d r] eqn:Hr.
  - destruct (isspace c) eqn:Hc.
    + exists (String c s). split; [done|]. simpl. rewrite Hc.
      simpl in IH. by rewrite IH.
    + exists b. split; [|done]. by rewrite append_cons, IH.
  - exists b. split; [|done]. by rewrite append_cons, <- IH.
Qed.

Lemma str_rstrip_fixed (s : string) : str_rstrip (str_rstrip s) = str_rstrip s.
Proof.
  induction s as [|c s IH]; [done|]. simpl.
  destruct (str_rstrip s) as [|d r] eqn:Hr.
  - destruct (isspace c) eqn:Hc; [done|]. simpl. by rewrite Hc.
  - change (str_rstrip (String c (String d r)))
      with (match str_rstrip (String d r) with
            | EmptyString => if isspace c then EmptyString else String c EmptyString
            | String _ _ as r' => String c r'
            end).
    by rewrite IH.
Qed.

Lemma length_str_lstrip (s : string) :
  (String.length (str_lstrip s) ≤ String.length s)%nat.
Proof.
  induction s as [|c s IH]; [done|]. simpl.
  destruct (isspace c); simpl; lia.
Qed.

Lemma str_lstrip_fixed_head (c : ascii) (s : string) :
  str_lstrip (String c s) = String c s → isspace c = false.
Proof.
  simpl. destruct (isspace c); [|done]. intros H.
  pose proof (length_str_lstrip s) as Hlen. rewrite H in Hlen. simpl in Hlen. lia.
Qed.

Lemma str_lstrip_rstrip (s : string) :
  str_lstrip s = s → str_lstrip (str_rstrip s) = str_rstrip s.
Proof.
  destruct s as [|c s]; [done|]. intros Hc%str_lstrip_fixed_head. simpl.
  destruct (str_rstrip s); rewrite ?Hc; simpl; by rewrite Hc.
Qed.

Lemma str_lstrip_fixed (s : string) : str_lstrip (str_lstrip s) = str_lstrip s.
Proof.
  induction s as [|c s IH]; [done|]. simpl.
  destruct (isspace c) eqn:Hc; [done|]. simpl. by rewrite Hc.
Qed.

Lemma str_strip_decomp (s : string) :
  ∃ a b, s = a +:+ str_strip s +:+ b ∧ all_space a = true ∧ all_space b = true.
Proof.
  destruct (str_lstrip_decomp s) as (a & Hs & Ha).
  destruct (str_rstrip_decomp (str_lstrip s)) as (b & Hl & Hb).
  exists a, b. unfold str_strip. by rewrite <- Hl, <- Hs.
Qed.

Lemma str_split_lstrip (s : string) : str_split (str_lstrip s) = str_split s.
Proof.
  unfold str_split. induction s as [|c s IH]; [done|]. simpl.
  destruct (isspace c) eqn:Hc; [done|]. simpl. by rewrite Hc.
Qed.

Lemma split_from_rstrip (tok s : string) :
  split_from tok (str_rstrip s) = split_from tok s.
Proof.
  revert tok. induction s as [|c s IH]; intros tok; [done|]. simpl.
  destruct (str_rstrip s) as [|d r] eqn:Hr.
  - destruct (isspace c) eqn:Hc.
    + rewrite <- IH. simpl. by rewrite app_nil_r.
    + simpl. rewrite Hc. by rewrite <- IH.
  - change (split_from tok (String c (String d r)))
      with (if isspace c then flush tok ++ split_from EmptyString (String d r)
            else split_from (tok +:+ String c EmptyString) (String d r)).
    destruct (isspace c); by rewrite <- IH.
Qed.

Lemma str_split_strip (s : string) : str_split (str_strip s) = str_split s.
Proof.
  unfold str_strip, str_split at 1. rewrite split_from_rstrip.
  apply str_split_lstrip.
Qed.

Lemma str_split_blank (s : string) : all_space s = true → str_split s = [].
Proof.
  unfold str_split. induction s as [|c s IH]; [done|]. simpl.
  intros [Hc Hs]%andb_true_iff. rewrite Hc. by apply IH.
Qed.

(** X17: [stream_lines] yields one value per line of the file, blank
    lines included; the value is the line without the whitespace at its
    two ends, and inner whitespace is kept. *)
Theorem stream_lines_strips (reader : string → list string) (filename : string) :
  length (stream_lines reader filename) = length (reader filename)
  ∧ ∀ i line,
      reader filename !! i = Some line →
      ∃ r a b,
        stream_lines reader filename !! i = Some r
        ∧ line = a +:+ r +:+ b
        ∧ all_space a = true ∧ all_space b = true
        ∧ str_lstrip r = r ∧ str_rstrip r = r.
Proof.
  unfold stream_lines. rewrite bind_yield. split; [apply length_fmap|].
  intros i line Hline.
  destruct (str_strip_decomp line) as (a & b & Hdec & Ha & Hb).
  exists (str_strip line), a, b. rewrite list_lookup_fmap, Hline.
  split_and!; try done.
  - unfold str_strip. apply str_lstrip_rstrip, str_lstrip_fixed.
  - apply str_rstrip_fixed.
Qed.

(** X18: reading the lines through [stream_lines] changes nothing for
    the n-grams of the default tokenizer, whatever the order. *)
Theorem stream_ngrams_of_stream_lines {F : Type} (float : string → option F)
    (reader : string → list string) (filename : string) (ngram_order : Z) :
  stream_ngrams float (stream_lines reader filename) ngram_order str_split
  = stream_ngrams float (reader filename) ngram_order str_split.
Proof.
  unfold stream_lines, stream_ngrams. rewrite bind_yield, list_fmap_bind.
  apply list_bind_ext; [|done]. intros line. simpl.
  by rewrite str_split_strip.
Qed.

(** X19: a line that is empty or holds only whitespace has no token; it
    yields no n-gram for an order of at least 1, and [1 - n] empty
    strings for an order [n] below 1. *)
Theorem blank_line_ngrams {F : Type} (float : string → option F)
    (line : string) (ngram_order : Z) :
  all_space line = true →
  str_split line = []
  ∧ stream_ngrams float [line] ngram_order str_split
    = replicate (Z.to_nat (1 - ngram_order)) "".
Proof.
  intros Hblank. pose proof (str_split_blank line Hblank) as Hsplit.
  split; [done|]. unfold stream_ngrams. rewrite bind_singleton. simpl.
  rewrite Hsplit. simpl. rewrite bind_yield. unfold py_range.
  rewrite (fmap_all_same _ "").
  - rewrite length_seqZ. f_equal. lia.
  - intros i _. unfold py_slice. by rewrite drop_nil, take_nil.
Qed.

Lemma blank_line_ngrams_witness :
  str_split "   " = []
  ∧ stream_ngrams float_of_digits ["   "] 2 str_split = [].
Proof.
  apply (blank_line_ngrams float_of_digits "   " 2). reflexivity.
Defined.

(** ** Sample runs *)

(** The default tokenizer. *)
Example ex_split : str_split "  the 12 cats  ate 3 mice " = ["the"; "12"; "cats"; "ate"; "3"; "mice"].
Proof. reflexivity. Qed.

(** Bigrams over three lines; the last line is too short to give one. *)
Example ex_ngrams :
  stream_ngrams float_of_digits ["the 12 cats ate"; "3 mice"; "x"] 2 str_split
  = ["the *NUM*"; "*NUM* cats"; "cats ate"; "*NUM* mice"].
Proof. reflexivity. Qed.

(** With a negative order the upper slice bound counts from the end of
    the line, and the pieces are no longer windows of a fixed size. *)
Example ex_ngrams_neg :
  stream_ngrams float_of_digits ["a b c"] (-1) str_split
  = ["a b"; ""; ""; ""; ""].
Proof. reflexivity. Qed.
